(** * md-inject: the marker-based injection of [main.go]

    A shallow embedding of [injectContent], [applyTemplate] and the
    decision part of [main], with the properties of the specification
    settled against it.

    Go strings are byte sequences: they are modelled as [list ascii].
    Go's [int] is modelled as [Z]; the only arithmetic of the program is
    [startTagPos+len(startTag)], which is bounded by [len(original)]
    (lemma [Index_bound]), so it never wraps. *)

From Stdlib Require Import ZArith List Ascii String Bool Lia.
Import ListNotations.

Local Open Scope Z_scope.

(** ** Strings *)

Definition gostring : Type := list ascii.

(** A literal of the source, as bytes. *)
Definition lit (s : string) : gostring := list_ascii_of_string s.

(** The byte written ["\n"] in the source. *)
Definition nl : ascii := ascii_of_nat 10.

Definition len (s : gostring) : Z := Z.of_nat (List.length s).

Definition eqbStr (s t : gostring) : bool :=
  if list_eq_dec ascii_dec s t then true else false.

(** [strings.HasPrefix(s, t)]. *)
Fixpoint HasPrefix (s t : gostring) {struct t} : bool :=
  match t, s with
  | [], _ => true
  | _ :: _, [] => false
  | b :: t', a :: s' => Ascii.eqb a b && HasPrefix s' t'
  end.

(** The scan behind [strings.Index]: the least offset at which [t] starts
    in [s], if there is one.  The empty string starts at offset 0. *)
Fixpoint indexNat (s t : gostring) : option nat :=
  if HasPrefix s t then Some O
  else match s with
       | [] => None
       | _ :: s' => option_map S (indexNat s' t)
       end.

(** [strings.Index(s, t)]: the index of the first instance of [t] in [s],
    or -1 when [t] is not present in [s]. *)
Definition Index (s t : gostring) : Z :=
  match indexNat s t with
  | Some i => Z.of_nat i
  | None => -1
  end.

(** Slice expressions [s[:hi]] and [s[lo:]]; out of range they panic. *)
Definition sliceTo (s : gostring) (hi : Z) : option gostring :=
  if (0 <=? hi) && (hi <=? len s) then Some (firstn (Z.to_nat hi) s) else None.

Definition sliceFrom (s : gostring) (lo : Z) : option gostring :=
  if (0 <=? lo) && (lo <=? len s) then Some (skipn (Z.to_nat lo) s) else None.

(** ** Results *)

(** What a call of type [(string, error)] can do: return a string with a
    nil error, return an error (kept as its message), or panic. *)
Inductive result : Type :=
| Ok (s : gostring)
| Error (msg : gostring)
| Panic.

(** ** The injector *)

(** The three [fmt.Errorf] messages of [injectContent]. *)
Definition errMissingStartTag (startTag : gostring) : gostring :=
  lit "missing start tag " ++ startTag ++ lit " while end tag is present".

Definition errMissingEndTag (endTag : gostring) : gostring :=
  lit "missing end tag " ++ endTag ++ lit " while start tag is present".

Definition errTagOrder : gostring := lit "end tag is before the start tag".

Definition injectContent (original addition startTag endTag : gostring) : result :=
  let startTagPos := Index original startTag in
  let endTagPos := Index original endTag in
  if (startTagPos <? 0) && (endTagPos <? 0) then
    Ok (original ++ [nl] ++ startTag ++ [nl] ++ addition ++ [nl] ++ endTag ++ [nl])
  else if startTagPos <? 0 then
    Error (errMissingStartTag startTag)
  else if endTagPos <? 0 then
    Error (errMissingEndTag endTag)
  else if startTagPos >? startTagPos then
    Error errTagOrder
  else
    match sliceTo original (startTagPos + len startTag), sliceFrom original endTagPos with
    | Some head, Some tail => Ok (head ++ [nl] ++ addition ++ [nl] ++ tail)
    | _, _ => Panic
    end.

(** ** Tags *)

(** [fmt.Sprintf(tagStartFormat, id)] and [fmt.Sprintf(tagEndFormat, id)]. *)
Definition tagStart (id : gostring) : gostring :=
  lit "<!-- START md-inject:" ++ id ++ lit " -->".

Definition tagEnd (id : gostring) : gostring :=
  lit "<!-- END md-inject:" ++ id ++ lit " -->".

Definition defaultOutputTemplate : gostring := lit "{ .stdin }".
Definition defaultTagID : gostring := lit "default".

(** ** The template engine

    [applyTemplate] parses its first argument with [text/template] and
    executes it with [stdin] bound to the content.  The library is not
    part of the program.  Its lexer starts in [lexText], which looks for
    the left delimiter: when [strings.Index] finds none, the whole source
    is one text item, the parse tree is that text and executing it writes
    the text.  What the library does with a source that holds an action
    is a parameter of the model. *)

Definition leftDelim : gostring := lit "{{".

Inductive Template : Type :=
| TextOnly (text : gostring)
| WithActions (src : gostring).

(** ** The run *)

Record config : Type := mkConfig {
  ID : gostring;
  failOnDiff : bool;
  printOnly : bool;
  template : gostring;
  filename : gostring
}.

(** What a run finds outside the program: the result of reading standard
    input to its end, of reading a named file, and of writing one. *)
Record World : Type := mkWorld {
  stdinRead : gostring + gostring;
  readFile : gostring -> gostring + gostring;
  writeFile : gostring -> gostring -> option gostring
}.

(** What a run does: its exit status, what it prints on the two streams,
    and the content it hands to [os.WriteFile] for the target file, when
    it makes that call. *)
Record Outcome : Type := mkOutcome {
  exitCode : Z;
  stdout : gostring;
  stderr : gostring;
  fileWrite : option gostring
}.

Definition readStdin (w : World) : gostring + gostring :=
  match stdinRead w with
  | inr err => inr (lit "reading stdin: " ++ err)
  | inl input => inl input
  end.

Definition fileContent (w : World) (name : gostring) : gostring + gostring :=
  readFile w name.

Section Run.

(** [text/template] on a source in which the left delimiter occurs:
    the syntax error of [Parse], if any, and the result of [Execute]. *)
Variable parseActions : gostring -> option gostring.
Variable executeActions : gostring -> gostring -> gostring + gostring.

Definition Parse (tmpl : gostring) : Template + gostring :=
  if Index tmpl leftDelim <? 0 then inl (TextOnly tmpl)
  else match parseActions tmpl with
       | Some err => inr err
       | None => inl (WithActions tmpl)
       end.

Definition Execute (t : Template) (content : gostring) : gostring + gostring :=
  match t with
  | TextOnly text => inl text
  | WithActions src => executeActions src content
  end.

Definition applyTemplate (tmpl content : gostring) : result :=
  match Parse tmpl with
  | inr err => Error err
  | inl t =>
      match Execute t content with
      | inr err => Error err
      | inl output => Ok output
      end
  end.

(** [main], from the configuration that [parseArgs] returns.  A panic
    ends a Go process with status 2 and a trace on standard error, which
    is abridged here; [injectContent_no_panic] shows there is none. *)
Definition main (cfg : config) (w : World) : Outcome :=
  match readStdin w with
  | inr err =>
      mkOutcome 1 [] (lit "Error reading stdin: " ++ err ++ [nl]) None
  | inl contentToInject =>
  match fileContent w (filename cfg) with
  | inr err =>
      mkOutcome 1 [] (lit "Error reading file: " ++ err ++ [nl]) None
  | inl oldContent =>
  match applyTemplate (template cfg) contentToInject with
  | Panic => mkOutcome 2 [] (lit "panic") None
  | Error err =>
      mkOutcome 1 [] (lit "Error applying template: " ++ err ++ [nl]) None
  | Ok contentToInject =>
  let startTag := tagStart (ID cfg) in
  let endTag := tagEnd (ID cfg) in
  match injectContent oldContent contentToInject startTag endTag with
  | Panic => mkOutcome 2 [] (lit "panic") None
  | Error err => mkOutcome 1 [] (lit "Error: " ++ err ++ [nl]) None
  | Ok updatedContent =>
  if eqbStr oldContent updatedContent then
    mkOutcome 0
      (lit "No content change needed for " ++ filename cfg
         ++ lit ", nothing to do!" ++ [nl]) [] None
  else if failOnDiff cfg then
    mkOutcome 2 []
      (filename cfg ++ lit " would be changed. The file is out of date." ++ [nl])
      None
  else if printOnly cfg then
    mkOutcome 0 updatedContent [] None
  else
    match writeFile w (filename cfg) updatedContent with
    | Some err =>
        mkOutcome 1 []
          (lit "Error writing to file " ++ filename cfg ++ lit ": " ++ err ++ [nl])
          (Some updatedContent)
    | None =>
        mkOutcome 0 (filename cfg ++ lit " successfully updated!" ++ [nl]) []
          (Some updatedContent)
    end
  end end end end.

End Run.

(** ** The command line

    [parseArgs] registers the four flags with their defaults, calls
    [flag.Parse] and takes the first remaining argument as the file name.
    The [flag] package is not part of the program: what [flag.Parse] does
    with the command line is an input of the model.  Either it ends the
    process itself (an undefined flag or a bad value, or [-h] and [-help])
    after printing on standard error, or it returns with the values of the
    flags that were given and the remaining arguments. *)

Record FlagValues : Type := mkFlagValues {
  flagID : option gostring;
  flagFailOnDiff : option bool;
  flagPrintOnly : option bool;
  flagTemplate : option gostring
}.

Inductive FlagOutcome : Type :=
| FlagExit (status : Z) (text : gostring)
| FlagParsed (values : FlagValues) (args : list gostring).

(** The value of a flag variable after [flag.Parse]: the value given on
    the command line, or the default it was registered with. *)
Definition orDefault {A : Type} (default : A) (given : option A) : A :=
  match given with
  | Some v => v
  | None => default
  end.

(** The byte of a double quote. *)
Definition dq : ascii := ascii_of_nat 34.

(** [usage]: the text of the source, then what [flag.PrintDefaults]
    prints, which is an input. *)
Definition usage (defaults : gostring) : gostring :=
  lit "Inject text from stdin into markdown files and keep it up to date." ++ [nl]
    ++ [nl]
    ++ lit "Usage:" ++ [nl]
    ++ lit "  md-inject [OPTIONS] FILE" ++ [nl]
    ++ [nl]
    ++ lit "Examples:" ++ [nl]
    ++ lit "  $ cat foo.txt | md-inject README.md" ++ [nl]
    ++ lit "  $ ./foo --help 2>&1 | md-inject --template='{{ printf " ++ [dq] ++ lit "```plaintext\n%s```" ++ [dq] ++ lit " .stdin }}' readme.md" ++ [nl]
    ++ lit "  $ ls -1 | md-inject --fail-on-diff readme.md" ++ [nl]
    ++ [nl]
    ++ lit "Options:" ++ [nl]
    ++ defaults.

Definition errNoFile : gostring :=
  lit "Error: Please specify a target file to inject text into, for example 'README.md'."
    ++ [nl; nl].

Definition parseArgs (defaults : gostring) (parsed : FlagOutcome) : config + Outcome :=
  match parsed with
  | FlagExit status text => inr (mkOutcome status [] text None)
  | FlagParsed values args =>
      match args with
      | [] => inr (mkOutcome 1 [] (errNoFile ++ usage defaults) None)
      | name :: _ =>
          inl (mkConfig (orDefault defaultTagID (flagID values))
                 (orDefault false (flagFailOnDiff values))
                 (orDefault false (flagPrintOnly values))
                 (orDefault defaultOutputTemplate (flagTemplate values))
                 name)
      end
  end.

(** The whole of the source's [main]: [parseArgs], then the rest of
    [main] on the configuration. *)
Definition program
  (parseActions : gostring -> option gostring)
  (executeActions : gostring -> gostring -> gostring + gostring)
  (defaults : gostring) (parsed : FlagOutcome) (w : World) : Outcome :=
  match parseArgs defaults parsed with
  | inr out => out
  | inl cfg => main parseActions executeActions cfg w
  end.

(** ** Occurrences, as the specification speaks of them *)

(** [t] occurs in [s] at offset [i]. *)
Definition OccursAt (s t : gostring) (i : nat) : Prop :=
  exists pre post, s = pre ++ t ++ post /\ List.length pre = i.

Definition Occurs (s t : gostring) : Prop := exists i, OccursAt s t i.

(** The first occurrence of [t] in [s] is at offset [i]. *)
Definition FirstAt (s t : gostring) (i : nat) : Prop :=
  OccursAt s t i /\ forall k, (k < i)%nat -> ~ OccursAt s t k.

(** The number of offsets of [s] at which [t] starts. *)
Fixpoint Count (s t : gostring) : nat :=
  ((if HasPrefix s t then 1 else 0) +
   match s with
   | [] => 0
   | _ :: s' => Count s' t
   end)%nat.

(** ** Concrete documents used below *)

Definition sDefault : gostring := tagStart defaultTagID.
Definition eDefault : gostring := tagEnd defaultTagID.

(** ["A\n<!-- START md-inject:default -->\nold\n<!-- END md-inject:default -->\nB\n"] *)
Definition docTagged : gostring :=
  lit "A" ++ [nl] ++ sDefault ++ [nl] ++ lit "old" ++ [nl] ++ eDefault ++ [nl]
    ++ lit "B" ++ [nl].

(** The end tag, a newline, then the start tag. *)
Definition docInverted : gostring := eDefault ++ [nl] ++ sDefault.

(** ["A\n"] *)
Definition docPlain : gostring := lit "A" ++ [nl].

(** An instance of the library parameter that knows one source with an
    action, [{{ .stdin }}], which renders the content. *)
Definition stdinAction : gostring := lit "{{ .stdin }}".

Definition stdinOnlyParse (src : gostring) : option gostring :=
  if eqbStr src stdinAction then None else Some (lit "template: unexpected action").

Definition stdinOnlyExecute (src content : gostring) : gostring + gostring :=
  inl content.

(** A world with the given standard input and one readable, writable
    file content under every name. *)
Definition worldOf (input file : gostring) : World :=
  mkWorld (inl input) (fun _ => inl file) (fun _ _ => None).

(** The tagged document once ["new"] has been injected. *)
Definition docFresh : gostring :=
  lit "A" ++ [nl] ++ sDefault ++ [nl] ++ lit "new" ++ [nl] ++ eDefault ++ [nl]
    ++ lit "B" ++ [nl].

Definition cfgCheck : config :=
  mkConfig defaultTagID true false stdinAction (lit "README.md").

(** The first end tag of the original starts before its first start tag. *)
Definition EndBeforeStart (original startTag endTag : gostring) : Prop :=
  exists i j,
    FirstAt original startTag i /\ FirstAt original endTag j /\ (j < i)%nat.

(** The slice [o[lo:hi]] of a document, for [lo <= hi <= len(o)]. *)
Definition between (o : gostring) (lo hi : nat) : gostring :=
  firstn (hi - lo) (skipn lo o).

(** The tagged document with another content between the tags. *)
Definition docNewer : gostring :=
  lit "A" ++ [nl] ++ sDefault ++ [nl] ++ lit "newer" ++ [nl] ++ eDefault ++ [nl]
    ++ lit "B" ++ [nl].

(** Configurations without fail-on-diff: one that writes, one that
    prints, and one with the default template. *)
Definition cfgWrite : config :=
  mkConfig defaultTagID false false stdinAction (lit "README.md").

Definition cfgPrint : config :=
  mkConfig defaultTagID false true stdinAction (lit "README.md").

Definition cfgDefault : config :=
  mkConfig defaultTagID false false defaultOutputTemplate (lit "README.md").

(** The line that [main] prints when the content is up to date. *)
Definition msgNoChange (name : gostring) : gostring :=
  lit "No content change needed for " ++ name ++ lit ", nothing to do!" ++ [nl].

(** Command lines: a file name alone, and fail-on-diff with a file
    name. *)
Definition flagsNone : FlagValues := mkFlagValues None None None None.

Definition flagsCheck : FlagValues :=
  mkFlagValues None (Some true) None (Some stdinAction).

(** * Properties *)

(** ** The search *)

Lemma HasPrefix_app (t post : gostring) : HasPrefix (t ++ post) t = true.
Proof.
  induction t as [|b t IH]; simpl; [reflexivity|].
  now rewrite Ascii.eqb_refl, IH.
Qed.

Lemma HasPrefix_true (s t : gostring) :
  HasPrefix s t = true <-> exists post, s = t ++ post.
Proof.
  split.
  - revert s; induction t as [|b t IH]; intros s H.
    + now exists s.
    + destruct s as [|a s]; simpl in H; [discriminate|].
      apply andb_true_iff in H as [Hab Hst].
      apply Ascii.eqb_eq in Hab; subst b.
      destruct (IH _ Hst) as [post ->]. now exists post.
  - intros [post ->]. apply HasPrefix_app.
Qed.

Lemma OccursAt_0 (s t : gostring) : OccursAt s t 0 <-> HasPrefix s t = true.
Proof.
  rewrite HasPrefix_true. split.
  - intros (pre & post & -> & Hl). destruct pre; [|discriminate]. now exists post.
  - intros [post ->]. now exists [], post.
Qed.

Lemma OccursAt_S (a : ascii) (s t : gostring) (i : nat) :
  OccursAt (a :: s) t (S i) <-> OccursAt s t i.
Proof.
  split.
  - intros (pre & post & E & Hl). destruct pre as [|a' pre]; [discriminate|].
    injection E as -> ->. injection Hl as Hl. now exists pre, post.
  - intros (pre & post & -> & Hl). exists (a :: pre), post. simpl. now rewrite Hl.
Qed.

Lemma OccursAt_nil (t : gostring) (i : nat) : OccursAt [] t i -> i = O.
Proof.
  intros (pre & post & E & Hl). destruct pre; [now subst|discriminate].
Qed.

Lemma indexNat_FirstAt (s t : gostring) (i : nat) :
  indexNat s t = Some i <-> FirstAt s t i.
Proof.
  revert i; induction s as [|a s IH]; intros i.
  - simpl. destruct (HasPrefix [] t) eqn:Hp.
    + split.
      * intros [= <-]. split; [now apply OccursAt_0|]. intros k Hk; lia.
      * intros [Ho _]. now rewrite (OccursAt_nil _ _ Ho).
    + split; [discriminate|]. intros [Ho _].
      pose proof (OccursAt_nil _ _ Ho); subst i.
      apply OccursAt_0 in Ho. congruence.
  - cbn [indexNat]. destruct (HasPrefix (a :: s) t) eqn:Hp.
    + split.
      * intros [= <-]. split; [now apply OccursAt_0|]. intros k Hk; lia.
      * intros [_ Hmin]. destruct i as [|i]; [reflexivity|].
        exfalso. apply (Hmin O); [lia|]. now apply OccursAt_0.
    + split.
      * destruct (indexNat s t) as [j|] eqn:Hj; [|discriminate].
        intros [= <-]. destruct (proj1 (IH j) eq_refl) as [Ho Hmin]. split.
        -- now apply OccursAt_S.
        -- intros [|k] Hk Hc.
           ++ apply OccursAt_0 in Hc. congruence.
           ++ apply OccursAt_S in Hc. apply (Hmin k); [lia|assumption].
      * intros [Ho Hmin]. destruct i as [|i].
        -- apply OccursAt_0 in Ho. congruence.
        -- assert (Hi : FirstAt s t i).
           { split; [now apply OccursAt_S in Ho|].
             intros k Hk Hc. apply (Hmin (S k)); [lia|]. now apply OccursAt_S. }
           apply IH in Hi. now rewrite Hi.
Qed.

Lemma indexNat_None (s t : gostring) : indexNat s t = None <-> ~ Occurs s t.
Proof.
  induction s as [|a s IH].
  - simpl. destruct (HasPrefix [] t) eqn:Hp.
    + split; [discriminate|]. intros H. exfalso. apply H. exists O. now apply OccursAt_0.
    + split; [|reflexivity]. intros _ [i Ho].
      pose proof (OccursAt_nil _ _ Ho); subst i. apply OccursAt_0 in Ho. congruence.
  - cbn [indexNat]. destruct (HasPrefix (a :: s) t) eqn:Hp.
    + split; [discriminate|]. intros H. exfalso. apply H. exists O. now apply OccursAt_0.
    + destruct (indexNat s t) as [j|] eqn:Hj; simpl.
      * split; [discriminate|]. intros H. exfalso. apply H.
        apply indexNat_FirstAt in Hj as [Ho _]. exists (S j). now apply OccursAt_S.
      * split; [|reflexivity]. intros _ [[|i] Ho].
        -- apply OccursAt_0 in Ho. congruence.
        -- apply OccursAt_S in Ho. apply (proj1 IH eq_refl). now exists i.
Qed.

Lemma Index_FirstAt (s t : gostring) (i : nat) :
  Index s t = Z.of_nat i <-> FirstAt s t i.
Proof.
  rewrite <- indexNat_FirstAt. unfold Index.
  destruct (indexNat s t) as [j|]; split; intros H; try lia; try discriminate.
  - f_equal; lia.
  - injection H as ->. reflexivity.
Qed.

Lemma Index_absent (s t : gostring) : Index s t < 0 <-> ~ Occurs s t.
Proof.
  rewrite <- indexNat_None. unfold Index.
  destruct (indexNat s t) as [j|]; split; intros H; try lia; try discriminate.
  reflexivity.
Qed.

Lemma Index_present (s t : gostring) : 0 <= Index s t <-> Occurs s t.
Proof.
  unfold Index. destruct (indexNat s t) as [j|] eqn:Hj.
  - split; [|lia]. intros _. apply indexNat_FirstAt in Hj as [Ho _]. now exists j.
  - split; [lia|]. intros H. now apply indexNat_None in Hj.
Qed.

Lemma Index_range (s t : gostring) : -1 <= Index s t.
Proof. unfold Index. destruct (indexNat s t); lia. Qed.

Lemma OccursAt_parts (s t : gostring) (i : nat) :
  OccursAt s t i ->
  s = firstn i s ++ t ++ skipn (i + List.length t) s /\
  (i + List.length t <= List.length s)%nat /\
  skipn i s = t ++ skipn (i + List.length t) s /\
  firstn (i + List.length t) s = firstn i s ++ t.
Proof.
  intros (pre & post & -> & <-).
  assert (H1 : firstn (List.length pre) (pre ++ t ++ post) = pre).
  { now rewrite firstn_app, Nat.sub_diag, firstn_all, firstn_O, app_nil_r. }
  assert (H2 : skipn (List.length pre + List.length t) (pre ++ t ++ post) = post).
  { rewrite app_assoc, <- length_app, skipn_app, Nat.sub_diag, skipn_all. reflexivity. }
  assert (H3 : skipn (List.length pre) (pre ++ t ++ post) = t ++ post).
  { now rewrite skipn_app, Nat.sub_diag, skipn_all. }
  assert (H4 : firstn (List.length pre + List.length t) (pre ++ t ++ post) = pre ++ t).
  { rewrite app_assoc, <- length_app, firstn_app, Nat.sub_diag, firstn_all, firstn_O.
    now rewrite app_nil_r. }
  rewrite H1, H2, H3, H4. repeat split; try reflexivity.
  rewrite !length_app. lia.
Qed.

(** The slice bound of [injectContent] is in range whenever the tag was
    found, so the sum cannot exceed the length of the document. *)
Lemma Index_bound (s t : gostring) :
  0 <= Index s t -> Index s t + len t <= len s.
Proof.
  unfold Index, len. destruct (indexNat s t) as [i|] eqn:Hi; [|lia].
  intros _. apply indexNat_FirstAt in Hi as [Ho _].
  apply OccursAt_parts in Ho as (_ & Hle & _). lia.
Qed.

(** ** The two successful paths of [injectContent] *)

Lemma injectContent_append (original addition startTag endTag : gostring) :
  Index original startTag < 0 ->
  Index original endTag < 0 ->
  injectContent original addition startTag endTag =
  Ok (original ++ [nl] ++ startTag ++ [nl] ++ addition ++ [nl] ++ endTag ++ [nl]).
Proof.
  intros Hs He. unfold injectContent.
  apply Z.ltb_lt in Hs, He. now rewrite Hs, He.
Qed.

Lemma injectContent_replace (original addition startTag endTag : gostring) :
  0 <= Index original startTag ->
  0 <= Index original endTag ->
  injectContent original addition startTag endTag =
  Ok (firstn (Z.to_nat (Index original startTag + len startTag)) original
        ++ [nl] ++ addition ++ [nl]
        ++ skipn (Z.to_nat (Index original endTag)) original).
Proof.
  intros Hs He. unfold injectContent.
  pose proof (Index_bound _ _ Hs) as Bs. pose proof (Index_bound _ _ He) as Be.
  assert (Ls : 0 <= len startTag) by (unfold len; lia).
  assert (Le : 0 <= len endTag) by (unfold len; lia).
  replace (Index original startTag <? 0) with false by (symmetry; apply Z.ltb_ge; lia).
  replace (Index original endTag <? 0) with false by (symmetry; apply Z.ltb_ge; lia).
  rewrite Z.gtb_ltb, Z.ltb_irrefl. cbn [andb].
  unfold sliceTo, sliceFrom.
  replace (0 <=? Index original startTag + len startTag) with true
    by (symmetry; apply Z.leb_le; lia).
  replace (Index original startTag + len startTag <=? len original) with true
    by (symmetry; apply Z.leb_le; lia).
  replace (0 <=? Index original endTag) with true by (symmetry; apply Z.leb_le; lia).
  replace (Index original endTag <=? len original) with true
    by (symmetry; apply Z.leb_le; lia).
  reflexivity.
Qed.

Lemma injectContent_replace_at (original addition startTag endTag : gostring) (i j : nat) :
  FirstAt original startTag i ->
  FirstAt original endTag j ->
  injectContent original addition startTag endTag =
  Ok (firstn (i + List.length startTag) original
        ++ [nl] ++ addition ++ [nl] ++ skipn j original).
Proof.
  intros Hi Hj. apply Index_FirstAt in Hi, Hj.
  rewrite injectContent_replace by lia. rewrite Hi, Hj. unfold len.
  now rewrite <- Nat2Z.inj_add, !Nat2Z.id.
Qed.

(** No call of [injectContent] panics: both slice bounds are in range. *)
Lemma injectContent_no_panic (original addition startTag endTag : gostring) :
  injectContent original addition startTag endTag <> Panic.
Proof.
  destruct (Z.lt_ge_cases (Index original startTag) 0) as [Hs|Hs];
    destruct (Z.lt_ge_cases (Index original endTag) 0) as [He|He].
  - now rewrite injectContent_append.
  - unfold injectContent. apply Z.ltb_lt in Hs. rewrite Hs.
    replace (Index original endTag <? 0) with false by (symmetry; apply Z.ltb_ge; lia).
    discriminate.
  - unfold injectContent. apply Z.ltb_lt in He. rewrite He.
    replace (Index original startTag <? 0) with false by (symmetry; apply Z.ltb_ge; lia).
    discriminate.
  - now rewrite injectContent_replace.
Qed.

Lemma injectContent_missing_start (original addition startTag endTag : gostring) :
  Index original startTag < 0 ->
  0 <= Index original endTag ->
  injectContent original addition startTag endTag = Error (errMissingStartTag startTag).
Proof.
  intros Hs He. unfold injectContent. apply Z.ltb_lt in Hs. rewrite Hs.
  now replace (Index original endTag <? 0) with false by (symmetry; apply Z.ltb_ge; lia).
Qed.

Lemma injectContent_missing_end (original addition startTag endTag : gostring) :
  0 <= Index original startTag ->
  Index original endTag < 0 ->
  injectContent original addition startTag endTag = Error (errMissingEndTag endTag).
Proof.
  intros Hs He. unfold injectContent. apply Z.ltb_lt in He. rewrite He.
  now replace (Index original startTag <? 0) with false by (symmetry; apply Z.ltb_ge; lia).
Qed.

Lemma Occurs_middle (pre t post : gostring) : Occurs (pre ++ t ++ post) t.
Proof. exists (List.length pre), pre, post. now split. Qed.

Ltac by_search := first [apply Index_FirstAt | apply Index_absent | apply Index_present];
  vm_compute; first [reflexivity | discriminate].

(** ** Append mode *)

(** C4: when neither tag occurs in the original, the call succeeds and
    returns the original, a newline, the start tag, a newline, the
    addition, a newline, the end tag and a final newline. *)
Theorem injectContent_both_absent (original addition startTag endTag : gostring) :
  ~ Occurs original startTag ->
  ~ Occurs original endTag ->
  injectContent original addition startTag endTag =
  Ok (original ++ [nl] ++ startTag ++ [nl] ++ addition ++ [nl] ++ endTag ++ [nl]).
Proof.
  intros Hs He. apply injectContent_append; now apply Index_absent.
Qed.

Lemma injectContent_both_absent_witness :
  injectContent docPlain (lit "new") (tagStart (lit "x")) (tagEnd (lit "x")) =
  Ok (lit "A" ++ [nl] ++ [nl] ++ lit "<!-- START md-inject:x -->" ++ [nl]
        ++ lit "new" ++ [nl] ++ lit "<!-- END md-inject:x -->" ++ [nl]).
Proof.
  apply (injectContent_both_absent docPlain (lit "new") (tagStart (lit "x")) (tagEnd (lit "x")));
    by_search.
Defined.

(** ** One tag without the other *)

Lemma errMissingStartTag_names (startTag : gostring) :
  Occurs (errMissingStartTag startTag) startTag.
Proof. apply Occurs_middle. Qed.

Lemma errMissingEndTag_names (endTag : gostring) :
  Occurs (errMissingEndTag endTag) endTag.
Proof. apply Occurs_middle. Qed.

(** C7: when exactly one of the two tags occurs, the call fails and the
    message names the missing tag: the end tag when only the start tag is
    present, the start tag when only the end tag is present. *)
Theorem injectContent_one_tag_missing (original addition startTag endTag : gostring) :
  (Occurs original startTag /\ ~ Occurs original endTag ->
   injectContent original addition startTag endTag = Error (errMissingEndTag endTag)
   /\ Occurs (errMissingEndTag endTag) endTag) /\
  (~ Occurs original startTag /\ Occurs original endTag ->
   injectContent original addition startTag endTag = Error (errMissingStartTag startTag)
   /\ Occurs (errMissingStartTag startTag) startTag).
Proof.
  split; intros [Hs He].
  - split; [|apply errMissingEndTag_names].
    apply injectContent_missing_end; [now apply Index_present|now apply Index_absent].
  - split; [|apply errMissingStartTag_names].
    apply injectContent_missing_start; [now apply Index_absent|now apply Index_present].
Qed.

Lemma injectContent_one_tag_missing_witness :
  (injectContent (lit "A" ++ sDefault) (lit "new") sDefault eDefault
   = Error (errMissingEndTag eDefault)
   /\ Occurs (errMissingEndTag eDefault) eDefault) /\
  (injectContent (lit "A" ++ eDefault) (lit "new") sDefault eDefault
   = Error (errMissingStartTag sDefault)
   /\ Occurs (errMissingStartTag sDefault) sDefault).
Proof.
  split.
  - apply (proj1 (injectContent_one_tag_missing (lit "A" ++ sDefault) (lit "new")
                    sDefault eDefault)).
    split; by_search.
  - apply (proj2 (injectContent_one_tag_missing (lit "A" ++ eDefault) (lit "new")
                    sDefault eDefault)).
    split; by_search.
Defined.

(** ** The order guard *)

Lemma errTagOrder_not_missing (tag : gostring) :
  errTagOrder <> errMissingStartTag tag /\ errTagOrder <> errMissingEndTag tag.
Proof. split; discriminate. Qed.

(** C9: the guard of the order error compares [startTagPos] with itself,
    so the error is never returned; when both tags occur, also with the
    end tag first, the call returns a document. *)
Theorem injectContent_order_error_unreachable :
  (forall original addition startTag endTag,
      injectContent original addition startTag endTag <> Error errTagOrder) /\
  (forall original addition startTag endTag,
      Occurs original startTag -> Occurs original endTag ->
      exists r, injectContent original addition startTag endTag = Ok r).
Proof.
  split.
  - intros original addition startTag endTag.
    destruct (errTagOrder_not_missing startTag) as [N1 _].
    destruct (errTagOrder_not_missing endTag) as [_ N2].
    destruct (Z.lt_ge_cases (Index original startTag) 0) as [Hs|Hs];
      destruct (Z.lt_ge_cases (Index original endTag) 0) as [He|He].
    + now rewrite injectContent_append.
    + rewrite injectContent_missing_start by assumption. congruence.
    + rewrite injectContent_missing_end by assumption. congruence.
    + now rewrite injectContent_replace.
  - intros original addition startTag endTag Hs He.
    apply Index_present in Hs, He. eexists. now apply injectContent_replace.
Qed.

Lemma injectContent_order_error_unreachable_witness :
  exists r, injectContent docInverted (lit "new") sDefault eDefault = Ok r.
Proof.
  apply (proj2 injectContent_order_error_unreachable docInverted (lit "new")
           sDefault eDefault); by_search.
Defined.

(** C1, at a document whose end tag comes first: the end tag is at offset
    0 and the start tag at offset 31, and the call returns a document (the
    whole original, the addition, and the whole original again) where the
    specification asks for the order error. *)
Theorem injectContent_inverted_accepted :
  FirstAt docInverted eDefault 0 /\
  FirstAt docInverted sDefault 31 /\
  injectContent docInverted (lit "new") sDefault eDefault =
  Ok (docInverted ++ [nl] ++ lit "new" ++ [nl] ++ docInverted).
Proof.
  split; [by_search|]. split; [by_search|]. vm_compute. reflexivity.
Qed.

(** ** The addition is opaque *)

(** C10: whether the call succeeds does not depend on the addition, and
    on success the result is the addition between a prefix and a suffix
    that the original and the two tags determine. *)
Theorem injectContent_addition_opaque (original startTag endTag : gostring) :
  (exists msg, forall addition,
      injectContent original addition startTag endTag = Error msg) \/
  (exists pre suf, forall addition,
      injectContent original addition startTag endTag = Ok (pre ++ addition ++ suf)).
Proof.
  destruct (Z.lt_ge_cases (Index original startTag) 0) as [Hs|Hs];
    destruct (Z.lt_ge_cases (Index original endTag) 0) as [He|He].
  - right. exists (original ++ [nl] ++ startTag ++ [nl]), ([nl] ++ endTag ++ [nl]).
    intros addition. rewrite injectContent_append by assumption.
    now rewrite <- !app_assoc.
  - left. eexists. intros addition. now apply injectContent_missing_start.
  - left. eexists. intros addition. now apply injectContent_missing_end.
  - right.
    exists (firstn (Z.to_nat (Index original startTag + len startTag)) original ++ [nl]),
      ([nl] ++ skipn (Z.to_nat (Index original endTag)) original).
    intros addition. rewrite injectContent_replace by lia.
    now rewrite <- !app_assoc.
Qed.

(** ** Replace mode *)

(** C3 as stated fails: in the tagged document the start tag is first at
    offset 2 and the end tag first at offset 39, and the call does not
    return the text without a newline between the addition and the end
    tag. *)
Lemma injectContent_both_present_counterexample :
  FirstAt docTagged sDefault 2 /\
  FirstAt docTagged eDefault 39 /\
  (2 < 39)%nat /\
  injectContent docTagged (lit "new") sDefault eDefault <>
  Ok (firstn (2 + List.length sDefault) docTagged ++ [nl] ++ lit "new"
        ++ skipn 39 docTagged).
Proof.
  split; [by_search|]. split; [by_search|]. split; [lia|].
  vm_compute. discriminate.
Qed.

(** C3, amended: when the start tag is first at offset [i] and the end
    tag first at offset [j] with [i < j], the call returns the original up
    to and including the start tag, a newline, the addition, a newline,
    and the original from the end tag on. *)
Theorem injectContent_both_present
  (original addition startTag endTag : gostring) (i j : nat) :
  FirstAt original startTag i ->
  FirstAt original endTag j ->
  (i < j)%nat ->
  injectContent original addition startTag endTag =
  Ok (firstn (i + List.length startTag) original
        ++ [nl] ++ addition ++ [nl] ++ skipn j original).
Proof.
  intros Hi Hj _. now apply injectContent_replace_at.
Qed.

Lemma injectContent_both_present_witness :
  injectContent docTagged (lit "new") sDefault eDefault =
  Ok (lit "A" ++ [nl] ++ sDefault ++ [nl] ++ lit "new" ++ [nl] ++ eDefault ++ [nl]
        ++ lit "B" ++ [nl]).
Proof.
  apply (injectContent_both_present docTagged (lit "new") sDefault eDefault 2 39);
    [by_search | by_search | lia].
Defined.

(** ** The default template *)

(** C2, on the code: the default template holds no left delimiter, so it
    is plain text and renders as itself whatever the content; for the
    content ["hello"] the result is not the content. *)
Theorem applyTemplate_default_is_literal
  (parseActions : gostring -> option gostring)
  (executeActions : gostring -> gostring -> gostring + gostring) :
  (forall content,
      applyTemplate parseActions executeActions defaultOutputTemplate content
      = Ok (lit "{ .stdin }")) /\
  applyTemplate parseActions executeActions defaultOutputTemplate (lit "hello")
  <> Ok (lit "hello").
Proof.
  assert (H : forall content,
             applyTemplate parseActions executeActions defaultOutputTemplate content
             = Ok (lit "{ .stdin }")) by (intros content; reflexivity).
  split; [exact H|]. rewrite H. discriminate.
Qed.

(** The template of the usage text, [{{ .stdin }}], is the one that
    passes the content through, in an instance that knows it. *)
Remark applyTemplate_stdinAction (content : gostring) :
  applyTemplate stdinOnlyParse stdinOnlyExecute stdinAction content = Ok content.
Proof. reflexivity. Qed.

(** ** The run *)

Section RunProperties.

Variable parseActions : gostring -> option gostring.
Variable executeActions : gostring -> gostring -> gostring + gostring.

Lemma eqbStr_true (s t : gostring) : eqbStr s t = true <-> s = t.
Proof. unfold eqbStr. destruct (list_eq_dec ascii_dec s t); split; congruence. Qed.

Lemma eqbStr_false (s t : gostring) : eqbStr s t = false <-> s <> t.
Proof. unfold eqbStr. destruct (list_eq_dec ascii_dec s t); split; congruence. Qed.

(** C8: in a run that computes an updated content, a content equal to
    the current one ends the run with status 0 and no write, whatever
    the flags; a different one under fail-on-diff ends it with status 2
    and no write. *)
Theorem main_fail_on_diff
  (cfg : config) (w : World) (input oldContent content updatedContent : gostring) :
  stdinRead w = inl input ->
  readFile w (filename cfg) = inl oldContent ->
  applyTemplate parseActions executeActions (template cfg) input = Ok content ->
  injectContent oldContent content (tagStart (ID cfg)) (tagEnd (ID cfg))
  = Ok updatedContent ->
  let out := main parseActions executeActions cfg w in
  (updatedContent = oldContent ->
   exitCode out = 0 /\ fileWrite out = None) /\
  (updatedContent <> oldContent -> failOnDiff cfg = true ->
   exitCode out = 2 /\ fileWrite out = None).
Proof.
  intros Hin Hfile Htmpl Hinj out. subst out.
  unfold main, readStdin, fileContent. rewrite Hin, Hfile, Htmpl, Hinj.
  split.
  - intros ->. rewrite (proj2 (eqbStr_true _ _) eq_refl). now split.
  - intros Hne Hflag.
    rewrite (proj2 (eqbStr_false oldContent updatedContent)) by congruence.
    rewrite Hflag. now split.
Qed.

End RunProperties.

Lemma main_fail_on_diff_witness :
  (exitCode (main stdinOnlyParse stdinOnlyExecute cfgCheck (worldOf (lit "new") docFresh)) = 0
   /\ fileWrite (main stdinOnlyParse stdinOnlyExecute cfgCheck (worldOf (lit "new") docFresh))
      = None) /\
  (exitCode (main stdinOnlyParse stdinOnlyExecute cfgCheck (worldOf (lit "new") docTagged)) = 2
   /\ fileWrite (main stdinOnlyParse stdinOnlyExecute cfgCheck (worldOf (lit "new") docTagged))
      = None).
Proof.
  split.
  - apply (proj1 (main_fail_on_diff stdinOnlyParse stdinOnlyExecute cfgCheck
                    (worldOf (lit "new") docFresh) (lit "new") docFresh (lit "new") docFresh
                    eq_refl eq_refl eq_refl eq_refl)).
    reflexivity.
  - apply (proj2 (main_fail_on_diff stdinOnlyParse stdinOnlyExecute cfgCheck
                    (worldOf (lit "new") docTagged) (lit "new") docTagged (lit "new") docFresh
                    eq_refl eq_refl eq_refl eq_refl)).
    + vm_compute. discriminate.
    + reflexivity.
Defined.

(** ** Occurrences in a concatenation *)

Lemma OccursAt_app_l (u x t : gostring) (k : nat) :
  OccursAt u t k -> OccursAt (u ++ x) t k.
Proof.
  intros (pre & post & -> & Hl). exists pre, (post ++ x).
  now rewrite <- !app_assoc.
Qed.

Lemma OccursAt_app_r (u v t : gostring) (k : nat) :
  OccursAt v t k -> OccursAt (u ++ v) t (List.length u + k).
Proof.
  intros (pre & post & -> & Hl). exists (u ++ pre), post.
  rewrite <- app_assoc, length_app. now rewrite Hl.
Qed.

Lemma OccursAt_firstn (n : nat) (o t : gostring) (k : nat) :
  OccursAt (firstn n o) t k -> OccursAt o t k.
Proof.
  intros H. rewrite <- (firstn_skipn n o). now apply OccursAt_app_l.
Qed.

(** An occurrence in [p ++ s] that starts at or after the end of [p] is
    an occurrence in [s]. *)
Lemma OccursAt_app_ge (p s t : gostring) (k : nat) :
  OccursAt (p ++ s) t k -> (List.length p <= k)%nat ->
  OccursAt s t (k - List.length p).
Proof.
  intros (pre & post & E & Hl) Hk. symmetry in E.
  apply app_eq_app in E as [l [[-> ->] | [-> E]]].
  - exists l, post. split; [reflexivity|].
    rewrite length_app in Hl. lia.
  - rewrite length_app in Hk.
    assert (l = []) by (destruct l; [reflexivity | simpl in Hk; lia]). subst l.
    simpl in E. subst s. exists [], post. split; [reflexivity|].
    rewrite app_nil_r. simpl. lia.
Qed.

(** A string without a newline cannot lie across a newline: an
    occurrence in [u ++ "\n" ++ v] is one in [u] or one in [v]. *)
Lemma OccursAt_barrier (u v t : gostring) (k : nat) :
  ~ In nl t ->
  OccursAt (u ++ nl :: v) t k ->
  OccursAt u t k \/
  exists k', k = (List.length u + 1 + k')%nat /\ OccursAt v t k'.
Proof.
  intros Hnl (pre & post & E & Hl). symmetry in E.
  apply app_eq_app in E as [l [[-> E] | [-> E]]].
  - destruct l as [|c l].
    + simpl in E. destruct t as [|b t].
      * left. exists u, []. split; [now rewrite app_nil_r|].
        now rewrite app_nil_r in Hl.
      * injection E as <- _. exfalso. apply Hnl. now left.
    + injection E as <- ->. right. exists (List.length l). split.
      * rewrite <- Hl, length_app. simpl. lia.
      * now exists l, post.
  - apply app_eq_app in E as [l2 [[-> E] | [-> E]]].
    + destruct l2 as [|c l2].
      * left. exists pre, []. split; [|assumption].
        now rewrite !app_nil_r.
      * injection E as <- _. exfalso. apply Hnl.
        apply in_or_app. right. now left.
    + left. exists pre, l2. now split.
Qed.

Lemma FirstAt_unique (s t : gostring) (i j : nat) :
  FirstAt s t i -> FirstAt s t j -> i = j.
Proof.
  intros [Hi Mi] [Hj Mj].
  destruct (Nat.lt_trichotomy i j) as [H|[H|H]]; [|assumption|].
  - exfalso. now apply (Mj i).
  - exfalso. now apply (Mi j).
Qed.

Lemma Occurs_FirstAt (s t : gostring) : Occurs s t -> exists i, FirstAt s t i.
Proof.
  intros H. apply Index_present in H.
  exists (Z.to_nat (Index s t)). apply Index_FirstAt. lia.
Qed.

(** ** The document after an injection *)

(** C5 as stated fails.  In the tagged document the injected content is
    not immediately between the tags (a newline is written on each side of
    it), and when the start tag occurs again after the end tag the result
    holds it twice. *)
Lemma injectContent_invariant_counterexample :
  (exists r, injectContent docTagged (lit "new") sDefault eDefault = Ok r /\
             ~ Occurs r (sDefault ++ lit "new" ++ eDefault)) /\
  (exists r, injectContent (docTagged ++ sDefault) (lit "new") sDefault eDefault = Ok r /\
             Count r sDefault = 2%nat).
Proof.
  split; eexists; (split; [vm_compute; reflexivity|]).
  - by_search.
  - vm_compute. reflexivity.
Qed.

(** The shape of a returned document when the end tag does not come
    first. *)
Lemma injectContent_shape
  (original addition startTag endTag r : gostring) :
  injectContent original addition startTag endTag = Ok r ->
  ~ EndBeforeStart original startTag endTag ->
  (~ Occurs original startTag /\ ~ Occurs original endTag /\
   r = (original ++ [nl]) ++ startTag ++ [nl] ++ addition ++ [nl] ++ endTag ++ [nl]) \/
  (exists i j,
      FirstAt original startTag i /\ FirstAt original endTag j /\ (i <= j)%nat /\
      r = firstn i original ++ startTag ++ [nl] ++ addition ++ [nl] ++ endTag
            ++ skipn (j + List.length endTag) original /\
      ((i + List.length startTag <= j)%nat ->
       exists old,
         original = firstn i original ++ startTag ++ old ++ endTag
                      ++ skipn (j + List.length endTag) original)).
Proof.
  intros Hr Hord.
  destruct (Z.lt_ge_cases (Index original startTag) 0) as [Hs|Hs];
    destruct (Z.lt_ge_cases (Index original endTag) 0) as [He|He].
  - left. rewrite injectContent_append in Hr by assumption. injection Hr as <-.
    repeat split; try (now apply Index_absent). now rewrite <- app_assoc.
  - now rewrite injectContent_missing_start in Hr.
  - now rewrite injectContent_missing_end in Hr.
  - right.
    destruct (Occurs_FirstAt original startTag) as [i Hi]; [now apply Index_present|].
    destruct (Occurs_FirstAt original endTag) as [j Hj]; [now apply Index_present|].
    exists i, j. split; [assumption|]. split; [assumption|].
    assert (Hij : (i <= j)%nat).
    { destruct (Nat.le_gt_cases i j) as [H|H]; [assumption|].
      exfalso. apply Hord. now exists i, j. }
    split; [assumption|].
    rewrite (injectContent_replace_at _ _ _ _ i j Hi Hj) in Hr. injection Hr as <-.
    destruct (OccursAt_parts _ _ _ (proj1 Hi)) as (Es & _ & Es3 & Es4).
    destruct (OccursAt_parts _ _ _ (proj1 Hj)) as (_ & _ & Ee3 & _).
    split.
    + rewrite Es4, Ee3. now rewrite <- !app_assoc.
    + intros Hno.
      exists (firstn (j - (i + List.length startTag))
                (skipn (i + List.length startTag) original)).
      rewrite <- Ee3.
      replace (skipn j original)
        with (skipn (j - (i + List.length startTag))
                (skipn (i + List.length startTag) original)).
      * rewrite firstn_skipn. exact Es.
      * rewrite skipn_skipn. f_equal. lia.
Qed.


(** ** Counting occurrences *)

Lemma Count_occurs (s t : gostring) (k : nat) :
  OccursAt s t k -> (1 <= Count s t)%nat.
Proof.
  revert k. induction s as [|a s IH]; intros k H.
  - pose proof (OccursAt_nil _ _ H); subst k.
    apply OccursAt_0 in H. simpl. rewrite H. lia.
  - cbn [Count]. destruct k as [|k].
    + apply OccursAt_0 in H. rewrite H. lia.
    + apply OccursAt_S in H. specialize (IH _ H). lia.
Qed.

Lemma Count_none (s t : gostring) :
  (forall k, ~ OccursAt s t k) -> Count s t = O.
Proof.
  induction s as [|a s IH]; intros H; cbn [Count].
  - destruct (HasPrefix [] t) eqn:Hp; [|reflexivity].
    exfalso. apply (H O). now apply OccursAt_0.
  - destruct (HasPrefix (a :: s) t) eqn:Hp.
    + exfalso. apply (H O). now apply OccursAt_0.
    + rewrite IH; [reflexivity|]. intros k Hk. apply (H (S k)). now apply OccursAt_S.
Qed.

(** A string that occurs at one offset only is counted once. *)
Lemma Count_one (s t : gostring) (k : nat) :
  OccursAt s t k ->
  (forall k', OccursAt s t k' -> k' = k) ->
  Count s t = 1%nat.
Proof.
  revert k. induction s as [|a s IH]; intros k H U.
  - pose proof (OccursAt_nil _ _ H); subst k.
    apply OccursAt_0 in H. simpl. now rewrite H.
  - cbn [Count]. destruct k as [|k].
    + pose proof H as H0. apply OccursAt_0 in H0. rewrite H0.
      rewrite Count_none; [reflexivity|].
      intros k' Hk'. apply OccursAt_S with (a := a) in Hk'.
      apply U in Hk'. discriminate.
    + destruct (HasPrefix (a :: s) t) eqn:Hp.
      * apply OccursAt_0 in Hp. apply U in Hp. discriminate.
      * apply OccursAt_S in H. rewrite (IH k H); [reflexivity|].
        intros k' Hk'. apply OccursAt_S with (a := a) in Hk'.
        apply U in Hk'. now injection Hk'.
Qed.

(** A string counted at most once occurs at one offset at most. *)
Lemma Count_le_1_unique (s t : gostring) (k k' : nat) :
  (Count s t <= 1)%nat -> OccursAt s t k -> OccursAt s t k' -> k = k'.
Proof.
  revert k k'. induction s as [|a s IH]; intros k k' Hc H H'.
  - now rewrite (OccursAt_nil _ _ H), (OccursAt_nil _ _ H').
  - cbn [Count] in Hc. destruct k as [|k], k' as [|k']; [reflexivity| | |].
    + apply OccursAt_0 in H. rewrite H in Hc.
      apply OccursAt_S, Count_occurs in H'. lia.
    + apply OccursAt_0 in H'. rewrite H' in Hc.
      apply OccursAt_S, Count_occurs in H. lia.
    + f_equal. apply IH; [lia| now apply OccursAt_S in H | now apply OccursAt_S in H'].
Qed.

(** In [(P ++ startTag) ++ "\n" ++ addition ++ "\n" ++ T] the start tag
    occurs where it is written and nowhere else, when it holds no
    newline, it is in [P ++ startTag] at that offset only, and it occurs
    neither in the addition nor in [T]. *)
Lemma start_tag_once (P T addition startTag : gostring) :
  ~ In nl startTag ->
  (forall k, OccursAt (P ++ startTag) startTag k -> k = List.length P) ->
  ~ Occurs addition startTag ->
  ~ Occurs T startTag ->
  Count ((P ++ startTag) ++ nl :: addition ++ nl :: T) startTag = 1%nat.
Proof.
  intros Ns HP Hadd HT. apply (Count_one _ _ (List.length P)).
  - exists P, (nl :: addition ++ nl :: T). split; [|reflexivity].
    now rewrite <- app_assoc.
  - intros k Hk.
    apply (OccursAt_barrier _ _ _ _ Ns) in Hk as [Hk | (k1 & -> & Hk)].
    + now apply HP.
    + exfalso.
      apply (OccursAt_barrier _ _ _ _ Ns) in Hk as [Hk | (k2 & -> & Hk)].
      * apply Hadd. now exists k1.
      * apply HT. now exists k2.
Qed.

(** Two strings that start at the same offset: one holds the other. *)
Lemma same_offset_nested (o s e : gostring) (i : nat) :
  OccursAt o s i -> OccursAt o e i -> Occurs s e \/ Occurs e s.
Proof.
  intros Hs He.
  destruct (OccursAt_parts _ _ _ Hs) as (_ & _ & Es & _).
  destruct (OccursAt_parts _ _ _ He) as (_ & _ & Ee & _).
  rewrite Es in Ee. apply app_eq_app in Ee as [l [[-> _] | [-> _]]].
  - left. exists O, [], l. now split.
  - right. exists O, [], l. now split.
Qed.

(** The returned document holds the start tag once, under conditions on
    what the caller passes. *)
Lemma injectContent_one_start_tag (original addition startTag endTag r : gostring) :
  injectContent original addition startTag endTag = Ok r ->
  ~ EndBeforeStart original startTag endTag ->
  ~ In nl startTag ->
  (Count original startTag <= 1)%nat ->
  ~ Occurs addition startTag ->
  ~ Occurs endTag startTag ->
  ~ Occurs startTag endTag ->
  Count r startTag = 1%nat.
Proof.
  intros Hr Hord Ns Hc Hadd Hes Hse.
  destruct (Z.lt_ge_cases (Index original startTag) 0) as [Hs|Hs];
    destruct (Z.lt_ge_cases (Index original endTag) 0) as [He|He].
  - rewrite injectContent_append in Hr by assumption. injection Hr as <-.
    apply Index_absent in Hs.
    pose proof (start_tag_once (original ++ [nl]) (endTag ++ [nl]) addition startTag Ns) as F.
    rewrite <- !app_assoc in F. simpl in F. simpl. apply F; try assumption.
    + intros k Hk.
      apply (OccursAt_barrier _ _ _ _ Ns) in Hk as [Hk | (k1 & -> & Hk)].
      * exfalso. apply Hs. now exists k.
      * destruct (OccursAt_parts _ _ _ Hk) as (_ & Hle & _).
        rewrite length_app. simpl. lia.
    + intros [k Hk].
      apply (OccursAt_barrier _ _ _ _ Ns) in Hk as [Hk | (k1 & -> & Hk)].
      * apply Hes. now exists k.
      * destruct (OccursAt_parts _ _ _ Hk) as (_ & Hle & _). simpl in Hle.
        assert (startTag = []) by (destruct startTag; [reflexivity|simpl in Hle; lia]).
        subst startTag. apply Hs. exists O. now apply OccursAt_0.
  - now rewrite injectContent_missing_start in Hr.
  - now rewrite injectContent_missing_end in Hr.
  - destruct (Occurs_FirstAt original startTag) as [i Hi]; [now apply Index_present|].
    destruct (Occurs_FirstAt original endTag) as [j Hj]; [now apply Index_present|].
    assert (Hij : (i <= j)%nat).
    { destruct (Nat.le_gt_cases i j) as [H|H]; [assumption|].
      exfalso. apply Hord. now exists i, j. }
    rewrite (injectContent_replace_at _ _ _ _ i j Hi Hj) in Hr. injection Hr as <-.
    destruct (OccursAt_parts _ _ _ (proj1 Hi)) as (_ & Hle & _ & Es4).
    destruct (OccursAt_parts _ _ _ (proj1 Hj)) as (_ & Hje & _ & _).
    assert (HP : List.length (firstn i original) = i) by (apply firstn_length_le; lia).
    assert (HJ : List.length (firstn j original) = j) by (apply firstn_length_le; lia).
    pose proof (start_tag_once (firstn i original) (skipn j original) addition startTag Ns) as F.
    rewrite Es4. rewrite <- !app_assoc in F. simpl in F.
    rewrite <- !app_assoc. simpl. apply F; try assumption.
    + intros k Hk. rewrite HP. rewrite <- Es4 in Hk.
      apply OccursAt_firstn in Hk.
      exact (Count_le_1_unique _ _ _ _ Hc Hk (proj1 Hi)).
    + intros [k Hk].
      apply (OccursAt_app_r (firstn j original)) in Hk.
      rewrite firstn_skipn, HJ in Hk.
      pose proof (Count_le_1_unique _ _ _ _ Hc Hk (proj1 Hi)) as E.
      assert (j = i) by lia. subst j.
      destruct (same_offset_nested _ _ _ _ (proj1 Hi) (proj1 Hj)); contradiction.
Qed.

(** C5, amended: after a successful injection in which the end tag does
    not come first, the document is a prefix, the start tag, a newline,
    the addition, a newline, the end tag and a suffix.  In append mode the
    prefix is the original with a newline and the suffix a newline.  In
    replace mode the prefix is the original before its first start tag and
    the suffix the original after its first end tag; when the tags do not
    overlap, these are the original around the replaced text.  The
    document holds exactly one occurrence of the start tag when the caller
    passes a start tag without newline that occurs at most once in the
    original and not in the addition, and tags of which neither occurs in
    the other. *)
Theorem injectContent_result_shape
  (original addition startTag endTag r : gostring) :
  injectContent original addition startTag endTag = Ok r ->
  ~ EndBeforeStart original startTag endTag ->
  ((~ Occurs original startTag /\ ~ Occurs original endTag /\
   r = (original ++ [nl]) ++ startTag ++ [nl] ++ addition ++ [nl] ++ endTag ++ [nl]) \/
  (exists i j,
      FirstAt original startTag i /\ FirstAt original endTag j /\ (i <= j)%nat /\
      r = firstn i original ++ startTag ++ [nl] ++ addition ++ [nl] ++ endTag
            ++ skipn (j + List.length endTag) original /\
      ((i + List.length startTag <= j)%nat ->
       exists old,
         original = firstn i original ++ startTag ++ old ++ endTag
                      ++ skipn (j + List.length endTag) original))) /\
  (~ In nl startTag ->
   (Count original startTag <= 1)%nat ->
   ~ Occurs addition startTag ->
   ~ Occurs endTag startTag ->
   ~ Occurs startTag endTag ->
   Count r startTag = 1%nat).
Proof.
  intros Hr Hord. split.
  - now apply injectContent_shape.
  - intros Ns Hc Hadd Hes Hse.
    now apply (injectContent_one_start_tag original addition startTag endTag r).
Qed.

Lemma injectContent_result_shape_witness :
  ((~ Occurs docTagged sDefault /\ ~ Occurs docTagged eDefault /\
    docFresh = (docTagged ++ [nl]) ++ sDefault ++ [nl] ++ lit "new" ++ [nl] ++ eDefault ++ [nl]) \/
   (exists i j,
       FirstAt docTagged sDefault i /\ FirstAt docTagged eDefault j /\ (i <= j)%nat /\
       docFresh = firstn i docTagged ++ sDefault ++ [nl] ++ lit "new" ++ [nl] ++ eDefault
             ++ skipn (j + List.length eDefault) docTagged /\
       ((i + List.length sDefault <= j)%nat ->
        exists old,
          docTagged = firstn i docTagged ++ sDefault ++ old ++ eDefault
                       ++ skipn (j + List.length eDefault) docTagged))) /\
  Count docFresh sDefault = 1%nat.
Proof.
  assert (Hord : ~ EndBeforeStart docTagged sDefault eDefault).
  { intros (i & j & Hi & Hj & Hlt).
    assert (Ei : i = 2%nat) by (apply (FirstAt_unique _ _ _ _ Hi); by_search).
    assert (Ej : j = 39%nat) by (apply (FirstAt_unique _ _ _ _ Hj); by_search).
    lia. }
  destruct (injectContent_result_shape docTagged (lit "new") sDefault eDefault docFresh
              eq_refl Hord) as [Hshape Hone].
  split; [exact Hshape|].
  apply Hone.
  - vm_compute. intuition discriminate.
  - vm_compute. lia.
  - by_search.
  - by_search.
  - by_search.
Defined.

(** ** Injecting twice *)

(** C6 as stated fails: an addition that holds the end tag is injected
    as it is, and the second run then finds that end tag first. *)
Lemma injectContent_idempotent_counterexample :
  exists r,
    injectContent docPlain eDefault sDefault eDefault = Ok r /\
    injectContent r eDefault sDefault eDefault <> Ok r.
Proof.
  eexists. split; [vm_compute; reflexivity|]. vm_compute. discriminate.
Qed.

(** The document [A ++ "\n" ++ addition ++ "\n" ++ T] is a fixed point of
    the injection when [A] ends with its first start tag and holds no end
    tag, the addition holds no end tag, and [T] starts with the end tag. *)
Lemma injectContent_fixed_point (P post addition startTag endTag : gostring) :
  ~ In nl startTag ->
  ~ In nl endTag ->
  (forall k, (k < List.length P)%nat -> ~ OccursAt (P ++ startTag) startTag k) ->
  ~ Occurs (P ++ startTag) endTag ->
  ~ Occurs addition endTag ->
  let r := (P ++ startTag) ++ nl :: addition ++ nl :: endTag ++ post in
  injectContent r addition startTag endTag = Ok r.
Proof.
  intros Ns Ne Hmin HAe Hadd r.
  assert (Hs : FirstAt r startTag (List.length P)).
  { split.
    - exists P, (nl :: addition ++ nl :: endTag ++ post). split; [|reflexivity].
      unfold r. now rewrite <- app_assoc.
    - intros k Hk Hc. unfold r in Hc.
      apply (OccursAt_barrier _ _ _ _ Ns) in Hc as [Hc | (k' & -> & _)].
      + now apply (Hmin k).
      + rewrite length_app in Hk. lia. }
  assert (He : FirstAt r endTag
                 (List.length (P ++ startTag) + 1 + (List.length addition + 1 + 0))).
  { split.
    - exists ((P ++ startTag) ++ nl :: addition ++ [nl]), post. split.
      + unfold r. rewrite <- !app_assoc. simpl. now rewrite <- !app_assoc.
      + rewrite !length_app. simpl. rewrite !length_app. simpl. lia.
    - intros k Hk Hc. unfold r in Hc.
      apply (OccursAt_barrier _ _ _ _ Ne) in Hc as [Hc | (k1 & -> & Hc)].
      + apply HAe. now exists k.
      + apply (OccursAt_barrier _ _ _ _ Ne) in Hc as [Hc | (k2 & -> & Hc)].
        * apply Hadd. now exists k1.
        * lia. }
  rewrite (injectContent_replace_at _ _ _ _ _ _ Hs He). f_equal.
  unfold r. rewrite <- length_app.
  rewrite firstn_app, Nat.sub_diag, firstn_all, firstn_O, app_nil_r.
  f_equal. simpl. f_equal. f_equal.
  replace (List.length (P ++ startTag) + 1 + (List.length addition + 1 + 0))%nat
    with (List.length ((P ++ startTag) ++ nl :: addition ++ [nl])).
  - replace ((P ++ startTag) ++ nl :: addition ++ nl :: endTag ++ post)
      with (((P ++ startTag) ++ nl :: addition ++ [nl]) ++ endTag ++ post).
    + now rewrite skipn_app, Nat.sub_diag, skipn_all.
    + rewrite <- !app_assoc. simpl. now rewrite <- !app_assoc.
  - rewrite !length_app. simpl. rewrite !length_app. simpl. lia.
Qed.

(** C6, amended: when the tags hold no newline, the end tag occurs
    neither in the start tag nor in the addition, and the end tag of the
    original does not come first, a successful injection returns a
    document that a second injection of the same addition leaves as it
    is. *)
Theorem injectContent_idempotent
  (original addition startTag endTag r : gostring) :
  ~ In nl startTag ->
  ~ In nl endTag ->
  ~ Occurs startTag endTag ->
  ~ Occurs addition endTag ->
  ~ EndBeforeStart original startTag endTag ->
  injectContent original addition startTag endTag = Ok r ->
  injectContent r addition startTag endTag = Ok r.
Proof.
  intros Ns Ne Hse Hadd Hord Hr.
  destruct (Z.lt_ge_cases (Index original startTag) 0) as [Hs|Hs];
    destruct (Z.lt_ge_cases (Index original endTag) 0) as [He|He].
  - (* append mode *)
    rewrite injectContent_append in Hr by assumption. injection Hr as <-.
    apply Index_absent in Hs, He.
    assert (H1 : forall k, (k < List.length (original ++ [nl]))%nat ->
                      ~ OccursAt ((original ++ [nl]) ++ startTag) startTag k).
    { intros k Hk Hc. rewrite <- app_assoc in Hc. simpl in Hc.
      apply (OccursAt_barrier _ _ _ _ Ns) in Hc as [Hc | (k' & -> & _)].
      - apply Hs. now exists k.
      - rewrite length_app in Hk. simpl in Hk. lia. }
    assert (H2 : ~ Occurs ((original ++ [nl]) ++ startTag) endTag).
    { intros [k Hc]. rewrite <- app_assoc in Hc. simpl in Hc.
      apply (OccursAt_barrier _ _ _ _ Ne) in Hc as [Hc | (k' & -> & Hc)].
      - apply He. now exists k.
      - apply Hse. now exists k'. }
    pose proof (injectContent_fixed_point (original ++ [nl]) [nl] addition
                  startTag endTag Ns Ne H1 H2 Hadd) as F.
    cbv zeta in F. rewrite <- !app_assoc in F. simpl in F. simpl. exact F.
  - now rewrite injectContent_missing_start in Hr.
  - now rewrite injectContent_missing_end in Hr.
  - (* replace mode *)
    destruct (Occurs_FirstAt original startTag) as [i Hi]; [now apply Index_present|].
    destruct (Occurs_FirstAt original endTag) as [j Hj]; [now apply Index_present|].
    assert (Hij : (i <= j)%nat).
    { destruct (Nat.le_gt_cases i j) as [H|H]; [assumption|].
      exfalso. apply Hord. now exists i, j. }
    rewrite (injectContent_replace_at _ _ _ _ i j Hi Hj) in Hr. injection Hr as <-.
    destruct (OccursAt_parts _ _ _ (proj1 Hi)) as (_ & Hle & _ & Es4).
    destruct (OccursAt_parts _ _ _ (proj1 Hj)) as (_ & _ & Ee3 & _).
    assert (HP : List.length (firstn i original) = i) by (apply firstn_length_le; lia).
    assert (H1 : forall k, (k < List.length (firstn i original))%nat ->
                      ~ OccursAt (firstn i original ++ startTag) startTag k).
    { intros k Hk Hc. rewrite HP in Hk. rewrite <- Es4 in Hc.
      apply OccursAt_firstn in Hc. now apply (proj2 Hi k). }
    assert (H2 : ~ Occurs (firstn i original ++ startTag) endTag).
    { intros [k Hc].
      assert (Hko : OccursAt original endTag k).
      { rewrite <- Es4 in Hc. now apply OccursAt_firstn in Hc. }
      assert (Hjk : (j <= k)%nat).
      { destruct (Nat.le_gt_cases j k) as [H|H]; [assumption|].
        exfalso. now apply (proj2 Hj k). }
      apply OccursAt_app_ge in Hc; [|lia].
      apply Hse. now exists (k - List.length (firstn i original))%nat. }
    pose proof (injectContent_fixed_point (firstn i original)
                  (skipn (j + List.length endTag) original) addition
                  startTag endTag Ns Ne H1 H2 Hadd) as F.
    cbv zeta in F. rewrite Es4, Ee3.
    rewrite <- !app_assoc in F. simpl in F.
    rewrite <- !app_assoc. simpl. exact F.
Qed.

Lemma injectContent_idempotent_witness :
  injectContent docFresh (lit "new") sDefault eDefault = Ok docFresh.
Proof.
  apply (injectContent_idempotent docTagged (lit "new") sDefault eDefault docFresh).
  - vm_compute. intuition discriminate.
  - vm_compute. intuition discriminate.
  - by_search.
  - by_search.
  - intros (i & j & Hi & Hj & Hlt).
    assert (Ei : i = 2%nat) by (apply (FirstAt_unique _ _ _ _ Hi); by_search).
    assert (Ej : j = 39%nat) by (apply (FirstAt_unique _ _ _ _ Hj); by_search).
    lia.
  - vm_compute. reflexivity.
Defined.

(** The tags of the program meet two of the conditions above for every
    identifier: the end tag never occurs in the start tag, and a tag holds
    a newline only when the identifier does. *)
Remark tagEnd_not_in_tagStart (id : gostring) : ~ Occurs (tagStart id) (tagEnd id).
Proof.
  intros (k & pre & post & E & _).
  assert (L : (List.length pre + List.length post = 2)%nat).
  { apply (f_equal (@List.length ascii)) in E.
    unfold tagStart, tagEnd in E. rewrite !length_app in E. simpl in E. lia. }
  destruct pre as [|a [|b [|c pre]]]; simpl in L; try lia;
    unfold tagStart, tagEnd in E; simpl in E; discriminate.
Qed.

Remark tag_newline_free (id : gostring) :
  ~ In nl id -> ~ In nl (tagStart id) /\ ~ In nl (tagEnd id).
Proof.
  intros Hid. split; intros H; unfold tagStart, tagEnd in H;
    apply in_app_or in H as [H | H];
    try (apply in_app_or in H as [H | H]); try contradiction;
    vm_compute in H; intuition discriminate.
Qed.

(** * Further properties of the code *)

(** ** What [injectContent] can return *)

Lemma Occurs_app_l (u x t : gostring) : Occurs u t -> Occurs (u ++ x) t.
Proof. intros [k H]. exists k. now apply OccursAt_app_l. Qed.

Lemma Occurs_app_r (u v t : gostring) : Occurs v t -> Occurs (u ++ v) t.
Proof. intros [k H]. eexists. apply OccursAt_app_r. eassumption. Qed.

Lemma Occurs_self_app (t x : gostring) : Occurs (t ++ x) t.
Proof. exists O, [], x. now split. Qed.

Lemma Occurs_app_self (p t : gostring) : Occurs (p ++ t) t.
Proof. exists (List.length p), p, []. now rewrite app_nil_r. Qed.

(** A call returns a document or one of the two missing-tag errors, and
    nothing else: it neither panics on a slice bound nor returns another
    error, whatever the four strings are (empty ones included). *)
Theorem injectContent_outcomes (original addition startTag endTag : gostring) :
  (exists r, injectContent original addition startTag endTag = Ok r) \/
  injectContent original addition startTag endTag = Error (errMissingStartTag startTag) \/
  injectContent original addition startTag endTag = Error (errMissingEndTag endTag).
Proof.
  destruct (Z.lt_ge_cases (Index original startTag) 0) as [Hs|Hs];
    destruct (Z.lt_ge_cases (Index original endTag) 0) as [He|He].
  - left. eexists. now apply injectContent_append.
  - right. left. now apply injectContent_missing_start.
  - right. right. now apply injectContent_missing_end.
  - left. eexists. now apply injectContent_replace.
Qed.

(** The two shapes of a returned document. *)
Lemma injectContent_Ok_inv (original addition startTag endTag r : gostring) :
  injectContent original addition startTag endTag = Ok r ->
  (~ Occurs original startTag /\ ~ Occurs original endTag /\
   r = original ++ [nl] ++ startTag ++ [nl] ++ addition ++ [nl] ++ endTag ++ [nl]) \/
  (exists i j,
      FirstAt original startTag i /\ FirstAt original endTag j /\
      r = firstn (i + List.length startTag) original ++ [nl] ++ addition ++ [nl]
            ++ skipn j original).
Proof.
  intros Hr.
  destruct (Z.lt_ge_cases (Index original startTag) 0) as [Hs|Hs];
    destruct (Z.lt_ge_cases (Index original endTag) 0) as [He|He].
  - left. rewrite injectContent_append in Hr by assumption. injection Hr as <-.
    split; [now apply Index_absent|]. split; [now apply Index_absent|]. reflexivity.
  - now rewrite injectContent_missing_start in Hr.
  - now rewrite injectContent_missing_end in Hr.
  - right.
    destruct (Occurs_FirstAt original startTag) as [i Hi]; [now apply Index_present|].
    destruct (Occurs_FirstAt original endTag) as [j Hj]; [now apply Index_present|].
    exists i, j. rewrite (injectContent_replace_at _ _ _ _ i j Hi Hj) in Hr.
    injection Hr as <-. split; [assumption|]. split; [assumption|]. reflexivity.
Qed.

Lemma injectContent_Ok_holds (original addition startTag endTag r : gostring) :
  injectContent original addition startTag endTag = Ok r ->
  Occurs r startTag /\ Occurs r endTag /\ Occurs r addition.
Proof.
  intros Hr. apply injectContent_Ok_inv in Hr as [(_ & _ & ->) | (i & j & Hi & Hj & ->)].
  - repeat split.
    + apply Occurs_app_r, Occurs_app_r, Occurs_self_app.
    + do 6 apply Occurs_app_r. apply Occurs_self_app.
    + do 4 apply Occurs_app_r. apply Occurs_self_app.
  - destruct (OccursAt_parts _ _ _ (proj1 Hi)) as (_ & _ & _ & Es4).
    destruct (OccursAt_parts _ _ _ (proj1 Hj)) as (_ & _ & Ee3 & _).
    repeat split.
    + apply Occurs_app_l. rewrite Es4. apply Occurs_app_self.
    + do 4 apply Occurs_app_r. rewrite Ee3. apply Occurs_self_app.
    + do 2 apply Occurs_app_r. apply Occurs_self_app.
Qed.

(** A returned document holds the start tag, the end tag and the
    addition, so a later call on it, with any addition, returns a document
    again: it cannot fail for a missing tag. *)
Theorem injectContent_result_injectable
  (original addition startTag endTag r : gostring) :
  injectContent original addition startTag endTag = Ok r ->
  Occurs r startTag /\ Occurs r endTag /\ Occurs r addition /\
  forall addition', exists r', injectContent r addition' startTag endTag = Ok r'.
Proof.
  intros Hr. destruct (injectContent_Ok_holds _ _ _ _ _ Hr) as (Hs & He & Ha).
  repeat split; try assumption.
  intros addition'. apply Index_present in Hs, He.
  eexists. now apply injectContent_replace.
Qed.

Lemma injectContent_result_injectable_witness :
  Occurs docFresh sDefault /\ Occurs docFresh eDefault /\ Occurs docFresh (lit "new") /\
  forall addition', exists r', injectContent docFresh addition' sDefault eDefault = Ok r'.
Proof.
  apply (injectContent_result_injectable docTagged (lit "new") sDefault eDefault docFresh).
  vm_compute. reflexivity.
Defined.

(** Two additions that give the same document on the same original are
    the same addition: a changed addition always changes the result. *)
Theorem injectContent_addition_injective
  (original a1 a2 startTag endTag r : gostring) :
  injectContent original a1 startTag endTag = Ok r ->
  injectContent original a2 startTag endTag = Ok r ->
  a1 = a2.
Proof.
  intros H1 H2.
  destruct (Z.lt_ge_cases (Index original startTag) 0) as [Hs|Hs];
    destruct (Z.lt_ge_cases (Index original endTag) 0) as [He|He].
  - rewrite injectContent_append in H1, H2 by assumption.
    assert (E : original ++ [nl] ++ startTag ++ [nl] ++ a1 ++ [nl] ++ endTag ++ [nl]
                = original ++ [nl] ++ startTag ++ [nl] ++ a2 ++ [nl] ++ endTag ++ [nl])
      by congruence.
    do 4 apply app_inv_head in E. now apply app_inv_tail in E.
  - now rewrite injectContent_missing_start in H1.
  - now rewrite injectContent_missing_end in H1.
  - rewrite injectContent_replace in H1, H2 by assumption.
    set (head := firstn (Z.to_nat (Index original startTag + len startTag)) original) in *.
    set (tail := skipn (Z.to_nat (Index original endTag)) original) in *.
    assert (E : head ++ [nl] ++ a1 ++ [nl] ++ tail = head ++ [nl] ++ a2 ++ [nl] ++ tail)
      by congruence.
    do 2 apply app_inv_head in E. now apply app_inv_tail in E.
Qed.

Lemma injectContent_addition_injective_witness : lit "new" = lit "new".
Proof.
  apply (injectContent_addition_injective docTagged (lit "new") (lit "new")
           sDefault eDefault docFresh); vm_compute; reflexivity.
Defined.

(** ** When a replacement changes nothing *)

Lemma between_split (o : gostring) (lo hi : nat) :
  (lo <= hi)%nat ->
  o = firstn lo o ++ between o lo hi ++ skipn hi o.
Proof.
  intros Hle. unfold between.
  replace (skipn hi o) with (skipn (hi - lo) (skipn lo o))
    by (rewrite skipn_skipn; f_equal; lia).
  now rewrite firstn_skipn, firstn_skipn.
Qed.

(** With the start tag first at [i] and the end tag first at [j], the
    tags not overlapping, the call returns the original unchanged exactly
    when the text between the two tags is a newline, the addition and a
    newline. *)
Theorem injectContent_replace_noop_iff
  (original addition startTag endTag : gostring) (i j : nat) :
  FirstAt original startTag i ->
  FirstAt original endTag j ->
  (i + List.length startTag <= j)%nat ->
  (injectContent original addition startTag endTag = Ok original <->
   between original (i + List.length startTag) j = [nl] ++ addition ++ [nl]).
Proof.
  intros Hi Hj Hle.
  rewrite (injectContent_replace_at _ _ _ _ i j Hi Hj).
  pose proof (between_split original _ _ Hle) as Eo.
  set (head := firstn (i + List.length startTag) original) in *.
  set (tail := skipn j original) in *.
  set (mid := between original (i + List.length startTag) j) in *.
  split.
  - intros H.
    assert (E : head ++ ([nl] ++ addition ++ [nl]) ++ tail = head ++ mid ++ tail).
    { rewrite <- Eo. rewrite <- !app_assoc. congruence. }
    apply app_inv_head, app_inv_tail in E. now symmetry.
  - intros Hm. f_equal. transitivity (head ++ mid ++ tail); [|now symmetry].
    rewrite Hm. now rewrite <- !app_assoc.
Qed.

Lemma injectContent_replace_noop_iff_witness :
  injectContent docFresh (lit "new") sDefault eDefault = Ok docFresh <->
  between docFresh (2 + List.length sDefault) 39 = [nl] ++ lit "new" ++ [nl].
Proof.
  apply (injectContent_replace_noop_iff docFresh (lit "new") sDefault eDefault 2 39);
    [by_search | by_search | vm_compute; lia].
Defined.

(** ** The end tag before the start tag *)

(** When the first end tag starts before the first start tag, the call
    returns the original up to the end of the start tag, the addition
    between two newlines, and the original again from the end tag on.  The
    stretch from the end tag to the end of the start tag is thus written
    twice, the result is longer than the original by that stretch, the
    addition and two bytes, and it is never the original. *)
Theorem injectContent_end_first_duplicates
  (original addition startTag endTag : gostring) (i j : nat) :
  FirstAt original startTag i ->
  FirstAt original endTag j ->
  (j < i)%nat ->
  exists r,
    injectContent original addition startTag endTag = Ok r /\
    r = firstn j original ++ between original j (i + List.length startTag)
          ++ [nl] ++ addition ++ [nl]
          ++ between original j (i + List.length startTag)
          ++ skipn (i + List.length startTag) original /\
    List.length r =
      (List.length original + (i + List.length startTag - j)
       + List.length addition + 2)%nat /\
    r <> original.
Proof.
  intros Hi Hj Hlt.
  destruct (OccursAt_parts _ _ _ (proj1 Hi)) as (_ & Hle & _ & _).
  set (h := (i + List.length startTag)%nat) in *.
  assert (Hjh : (j <= h)%nat) by lia.
  pose proof (between_split original j h Hjh) as Eo.
  assert (Lb : List.length (between original j h) = (h - j)%nat).
  { unfold between. rewrite firstn_length_le; [reflexivity|].
    rewrite length_skipn. lia. }
  assert (Eh : firstn h original = firstn j original ++ between original j h).
  { unfold between. rewrite <- (firstn_skipn j (firstn h original)).
    f_equal.
    - rewrite firstn_firstn. f_equal. lia.
    - now rewrite skipn_firstn_comm. }
  assert (Et : skipn j original = between original j h ++ skipn h original).
  { unfold between.
    replace (skipn h original) with (skipn (h - j) (skipn j original))
      by (rewrite skipn_skipn; f_equal; lia).
    now rewrite firstn_skipn. }
  eexists. split; [apply (injectContent_replace_at _ _ _ _ i j Hi Hj)|].
  fold h. split; [|split].
  - rewrite Eh, Et. now rewrite <- !app_assoc.
  - rewrite !length_app, length_firstn, length_skipn. simpl. lia.
  - intros E. apply (f_equal (@List.length ascii)) in E.
    rewrite !length_app, length_firstn, length_skipn in E. simpl in E. lia.
Qed.

Lemma injectContent_end_first_duplicates_witness :
  exists r,
    injectContent docInverted (lit "new") sDefault eDefault = Ok r /\
    r = firstn 0 docInverted ++ between docInverted 0 (31 + List.length sDefault)
          ++ [nl] ++ lit "new" ++ [nl]
          ++ between docInverted 0 (31 + List.length sDefault)
          ++ skipn (31 + List.length sDefault) docInverted /\
    List.length r =
      (List.length docInverted + (31 + List.length sDefault - 0)
       + List.length (lit "new") + 2)%nat /\
    r <> docInverted.
Proof.
  apply (injectContent_end_first_duplicates docInverted (lit "new") sDefault eDefault 31 0);
    [by_search | by_search | lia].
Defined.

(** ** A second injection *)

(** On the document [A ++ "\n" ++ a1 ++ "\n" ++ T], with [A], [a1] and
    [T] as in [injectContent_fixed_point], injecting [a2] puts [a2] in the
    place of [a1]. *)
Lemma injectContent_in_place (P post a1 a2 startTag endTag : gostring) :
  ~ In nl startTag ->
  ~ In nl endTag ->
  (forall k, (k < List.length P)%nat -> ~ OccursAt (P ++ startTag) startTag k) ->
  ~ Occurs (P ++ startTag) endTag ->
  ~ Occurs a1 endTag ->
  injectContent ((P ++ startTag) ++ nl :: a1 ++ nl :: endTag ++ post) a2 startTag endTag
  = Ok ((P ++ startTag) ++ nl :: a2 ++ nl :: endTag ++ post).
Proof.
  intros Ns Ne Hmin HAe Hadd.
  set (r := (P ++ startTag) ++ nl :: a1 ++ nl :: endTag ++ post).
  assert (Hs : FirstAt r startTag (List.length P)).
  { split.
    - exists P, (nl :: a1 ++ nl :: endTag ++ post). split; [|reflexivity].
      unfold r. now rewrite <- app_assoc.
    - intros k Hk Hc. unfold r in Hc.
      apply (OccursAt_barrier _ _ _ _ Ns) in Hc as [Hc | (k' & -> & _)].
      + now apply (Hmin k).
      + rewrite length_app in Hk. lia. }
  assert (Lr : List.length ((P ++ startTag) ++ nl :: a1 ++ [nl])
               = (List.length (P ++ startTag) + 1 + (List.length a1 + 1 + 0))%nat).
  { rewrite !length_app. simpl. rewrite !length_app. simpl. lia. }
  assert (Er : r = ((P ++ startTag) ++ nl :: a1 ++ [nl]) ++ endTag ++ post).
  { unfold r. rewrite <- !app_assoc. simpl. now rewrite <- !app_assoc. }
  assert (He : FirstAt r endTag (List.length ((P ++ startTag) ++ nl :: a1 ++ [nl]))).
  { split.
    - rewrite Er. now exists ((P ++ startTag) ++ nl :: a1 ++ [nl]), post.
    - intros k Hk Hc. rewrite Lr in Hk. unfold r in Hc.
      apply (OccursAt_barrier _ _ _ _ Ne) in Hc as [Hc | (k1 & -> & Hc)].
      + apply HAe. now exists k.
      + apply (OccursAt_barrier _ _ _ _ Ne) in Hc as [Hc | (k2 & -> & Hc)].
        * apply Hadd. now exists k1.
        * lia. }
  rewrite (injectContent_replace_at _ _ _ _ _ _ Hs He). f_equal.
  rewrite Er at 2. rewrite skipn_app, Nat.sub_diag, skipn_all. simpl.
  unfold r. rewrite <- length_app.
  now rewrite firstn_app, Nat.sub_diag, firstn_all, firstn_O, app_nil_r.
Qed.

(** Under the conditions of the amended C6 on the first addition, a
    second injection gives what injecting its addition into the original
    gives. *)
Lemma injectContent_again (original a1 a2 startTag endTag r : gostring) :
  ~ In nl startTag ->
  ~ In nl endTag ->
  ~ Occurs startTag endTag ->
  ~ Occurs a1 endTag ->
  ~ EndBeforeStart original startTag endTag ->
  injectContent original a1 startTag endTag = Ok r ->
  injectContent r a2 startTag endTag = injectContent original a2 startTag endTag.
Proof.
  intros Ns Ne Hse Hadd Hord Hr.
  destruct (Z.lt_ge_cases (Index original startTag) 0) as [Hs|Hs];
    destruct (Z.lt_ge_cases (Index original endTag) 0) as [He|He].
  - rewrite injectContent_append in Hr by assumption. injection Hr as <-.
    rewrite (injectContent_append original a2) by assumption.
    apply Index_absent in Hs, He.
    assert (H1 : forall k, (k < List.length (original ++ [nl]))%nat ->
                      ~ OccursAt ((original ++ [nl]) ++ startTag) startTag k).
    { intros k Hk Hc. rewrite <- app_assoc in Hc. simpl in Hc.
      apply (OccursAt_barrier _ _ _ _ Ns) in Hc as [Hc | (k' & -> & _)].
      - apply Hs. now exists k.
      - rewrite length_app in Hk. simpl in Hk. lia. }
    assert (H2 : ~ Occurs ((original ++ [nl]) ++ startTag) endTag).
    { intros [k Hc]. rewrite <- app_assoc in Hc. simpl in Hc.
      apply (OccursAt_barrier _ _ _ _ Ne) in Hc as [Hc | (k' & -> & Hc)].
      - apply He. now exists k.
      - apply Hse. now exists k'. }
    pose proof (injectContent_in_place (original ++ [nl]) [nl] a1 a2
                  startTag endTag Ns Ne H1 H2 Hadd) as F.
    rewrite <- !app_assoc in F. simpl in F. simpl. exact F.
  - now rewrite injectContent_missing_start in Hr.
  - now rewrite injectContent_missing_end in Hr.
  - destruct (Occurs_FirstAt original startTag) as [i Hi]; [now apply Index_present|].
    destruct (Occurs_FirstAt original endTag) as [j Hj]; [now apply Index_present|].
    assert (Hij : (i <= j)%nat).
    { destruct (Nat.le_gt_cases i j) as [H|H]; [assumption|].
      exfalso. apply Hord. now exists i, j. }
    rewrite (injectContent_replace_at _ _ _ _ i j Hi Hj) in Hr. injection Hr as <-.
    rewrite (injectContent_replace_at original a2 _ _ i j Hi Hj).
    destruct (OccursAt_parts _ _ _ (proj1 Hi)) as (_ & Hle & _ & Es4).
    destruct (OccursAt_parts _ _ _ (proj1 Hj)) as (_ & _ & Ee3 & _).
    assert (HP : List.length (firstn i original) = i) by (apply firstn_length_le; lia).
    assert (H1 : forall k, (k < List.length (firstn i original))%nat ->
                      ~ OccursAt (firstn i original ++ startTag) startTag k).
    { intros k Hk Hc. rewrite HP in Hk. rewrite <- Es4 in Hc.
      apply OccursAt_firstn in Hc. now apply (proj2 Hi k). }
    assert (H2 : ~ Occurs (firstn i original ++ startTag) endTag).
    { intros [k Hc].
      assert (Hko : OccursAt original endTag k).
      { rewrite <- Es4 in Hc. now apply OccursAt_firstn in Hc. }
      assert (Hjk : (j <= k)%nat).
      { destruct (Nat.le_gt_cases j k) as [H|H]; [assumption|].
        exfalso. now apply (proj2 Hj k). }
      apply OccursAt_app_ge in Hc; [|lia].
      apply Hse. now exists (k - List.length (firstn i original))%nat. }
    pose proof (injectContent_in_place (firstn i original)
                  (skipn (j + List.length endTag) original) a1 a2
                  startTag endTag Ns Ne H1 H2 Hadd) as F.
    rewrite Es4, Ee3.
    rewrite <- !app_assoc in F. simpl in F.
    rewrite <- !app_assoc. simpl. exact F.
Qed.

(** The last injection wins: with tags that hold no newline, an end tag
    that occurs neither in the start tag nor in the first addition, and an
    original whose end tag does not come first, injecting a second
    addition into the result of the first gives the document that
    injecting the second addition into the original gives.  The first
    addition leaves no trace. *)
Theorem injectContent_last_wins (original a1 a2 startTag endTag r : gostring) :
  ~ In nl startTag ->
  ~ In nl endTag ->
  ~ Occurs startTag endTag ->
  ~ Occurs a1 endTag ->
  ~ EndBeforeStart original startTag endTag ->
  injectContent original a1 startTag endTag = Ok r ->
  injectContent r a2 startTag endTag = injectContent original a2 startTag endTag.
Proof. exact (injectContent_again original a1 a2 startTag endTag r). Qed.

Lemma sDefault_no_nl : ~ In nl sDefault.
Proof. vm_compute. intuition discriminate. Qed.

Lemma eDefault_no_nl : ~ In nl eDefault.
Proof. vm_compute. intuition discriminate. Qed.

Lemma docTagged_in_order : ~ EndBeforeStart docTagged sDefault eDefault.
Proof.
  intros (i & j & Hi & Hj & Hlt).
  assert (Ei : i = 2%nat) by (apply (FirstAt_unique _ _ _ _ Hi); by_search).
  assert (Ej : j = 39%nat) by (apply (FirstAt_unique _ _ _ _ Hj); by_search).
  lia.
Qed.

Lemma injectContent_last_wins_witness :
  injectContent docFresh (lit "newer") sDefault eDefault
  = injectContent docTagged (lit "newer") sDefault eDefault.
Proof.
  apply (injectContent_last_wins docTagged (lit "new") (lit "newer") sDefault eDefault docFresh).
  - exact sDefault_no_nl.
  - exact eDefault_no_nl.
  - by_search.
  - by_search.
  - exact docTagged_in_order.
  - vm_compute. reflexivity.
Defined.

(** ** The template step *)

Section MainProperties.

Variable parseActions : gostring -> option gostring.
Variable executeActions : gostring -> gostring -> gostring + gostring.

Lemma applyTemplate_no_panic (tmpl content : gostring) :
  applyTemplate parseActions executeActions tmpl content <> Panic.
Proof.
  unfold applyTemplate. destruct (Parse parseActions tmpl) as [t|err]; [|discriminate].
  destruct (Execute executeActions t content); discriminate.
Qed.

Lemma applyTemplate_plain (tmpl content : gostring) :
  ~ Occurs tmpl leftDelim ->
  applyTemplate parseActions executeActions tmpl content = Ok tmpl.
Proof.
  intros H. apply Index_absent in H. apply Z.ltb_lt in H.
  unfold applyTemplate, Parse. now rewrite H.
Qed.

(** A template in which the left delimiter does not occur is rendered as
    itself: two contents give the same result, the template text, and the
    engine's handling of actions is never consulted. *)
Theorem applyTemplate_text_only (tmpl c1 c2 : gostring) :
  ~ Occurs tmpl leftDelim ->
  applyTemplate parseActions executeActions tmpl c1 = Ok tmpl /\
  applyTemplate parseActions executeActions tmpl c1
  = applyTemplate parseActions executeActions tmpl c2.
Proof.
  intros H. split; [now apply applyTemplate_plain|].
  now rewrite !applyTemplate_plain.
Qed.

Ltac run_cases cfg w :=
  unfold main, readStdin, fileContent; cbv zeta;
  destruct (stdinRead w) as [?input|?err] eqn:?Hin;
  [ destruct (readFile w (filename cfg)) as [?old|?err] eqn:?Hfile;
    [ destruct (applyTemplate parseActions executeActions (template cfg) input)
        as [?content|?err|] eqn:?Htmpl;
      [ destruct (injectContent old content (tagStart (ID cfg)) (tagEnd (ID cfg)))
          as [?updated|?err|] eqn:?Hinj;
        [ destruct (eqbStr old updated) eqn:?Heq;
          [ | destruct (failOnDiff cfg) eqn:?Hfail;
              [ | destruct (printOnly cfg) eqn:?Hprint;
                  [ | destruct (writeFile w (filename cfg) updated) eqn:?Hwrite ] ] ]
        | | exfalso; eapply injectContent_no_panic; eassumption ]
      | | exfalso; eapply applyTemplate_no_panic; eassumption ]
    | ]
  | ]; cbn [exitCode stdout stderr fileWrite].

(** ** What a run does *)

(** From a configuration on, the exit status is 0, 1 or 2, and it is 2
    only under fail-on-diff, after the input, the file, the template and
    the injection succeeded with a content that differs from the file. *)
Lemma main_exit_status (cfg : config) (w : World) :
  let out := main parseActions executeActions cfg w in
  (exitCode out = 0 \/ exitCode out = 1 \/ exitCode out = 2) /\
  (exitCode out = 2 ->
   failOnDiff cfg = true /\ fileWrite out = None /\
   exists input oldContent content updatedContent,
     stdinRead w = inl input /\
     readFile w (filename cfg) = inl oldContent /\
     applyTemplate parseActions executeActions (template cfg) input = Ok content /\
     injectContent oldContent content (tagStart (ID cfg)) (tagEnd (ID cfg))
     = Ok updatedContent /\
     updatedContent <> oldContent).
Proof.
  run_cases cfg w; (split; [auto|]); intros E; try discriminate E.
  split; [reflexivity|]. split; [reflexivity|].
  exists input, old, content, updated. repeat split; try assumption.
  apply eqbStr_false in Heq. congruence.
Qed.

(** A run hands a content to [os.WriteFile] only when neither flag is
    set, and the content is then the result of the injection into the
    file's content and differs from it. *)
Theorem main_writes_only_changes (cfg : config) (w : World) (c : gostring) :
  fileWrite (main parseActions executeActions cfg w) = Some c ->
  failOnDiff cfg = false /\ printOnly cfg = false /\
  exists input oldContent content,
    stdinRead w = inl input /\
    readFile w (filename cfg) = inl oldContent /\
    applyTemplate parseActions executeActions (template cfg) input = Ok content /\
    injectContent oldContent content (tagStart (ID cfg)) (tagEnd (ID cfg)) = Ok c /\
    c <> oldContent.
Proof.
  run_cases cfg w; intros E; try discriminate E; injection E as <-;
    (split; [reflexivity|]); (split; [reflexivity|]);
    exists input, old, content; repeat split; try assumption;
    apply eqbStr_false in Heq; congruence.
Qed.

(** From a configuration on, standard error is empty exactly when the
    exit status is 0, and another status leaves standard output empty. *)
Lemma main_streams (cfg : config) (w : World) :
  let out := main parseActions executeActions cfg w in
  (exitCode out = 0 <-> stderr out = []) /\
  (exitCode out <> 0 -> stdout out = []).
Proof.
  run_cases cfg w; (split; [split; intros E|intros E]);
    try reflexivity; try discriminate E; try (exfalso; now apply E).
  apply app_eq_nil in E as [_ E]. discriminate E.
Qed.

(** Under print-only without fail-on-diff, a run that computes a content
    writes no file and ends with status 0.  It prints the computed
    document when it differs from the file; when it is the file's content,
    it prints the no-change line instead of the document. *)
Theorem main_print_only
  (cfg : config) (w : World) (input oldContent content updatedContent : gostring) :
  stdinRead w = inl input ->
  readFile w (filename cfg) = inl oldContent ->
  applyTemplate parseActions executeActions (template cfg) input = Ok content ->
  injectContent oldContent content (tagStart (ID cfg)) (tagEnd (ID cfg))
  = Ok updatedContent ->
  failOnDiff cfg = false ->
  printOnly cfg = true ->
  let out := main parseActions executeActions cfg w in
  exitCode out = 0 /\ fileWrite out = None /\ stderr out = [] /\
  (updatedContent <> oldContent -> stdout out = updatedContent) /\
  (updatedContent = oldContent -> stdout out = msgNoChange (filename cfg)).
Proof.
  intros Hin Hfile Htmpl Hinj Hfail Hprint out. subst out.
  unfold main, readStdin, fileContent. rewrite Hin, Hfile, Htmpl, Hinj. cbv zeta.
  destruct (eqbStr oldContent updatedContent) eqn:Heq.
  - apply eqbStr_true in Heq. cbn. repeat split; try reflexivity. congruence.
  - apply eqbStr_false in Heq. rewrite Hfail, Hprint. cbn.
    repeat split; try reflexivity. congruence.
Qed.

(** A failed read ends the run with status 1, nothing on standard output
    and no write, whatever the flags.  For standard input the message
    carries the prefix of [readStdin] after the one of [main]; the file is
    then not consulted. *)
Theorem main_read_failures (cfg : config) (w : World) :
  (forall err,
      stdinRead w = inr err ->
      main parseActions executeActions cfg w
      = mkOutcome 1 [] (lit "Error reading stdin: reading stdin: " ++ err ++ [nl]) None) /\
  (forall input err,
      stdinRead w = inl input ->
      readFile w (filename cfg) = inr err ->
      main parseActions executeActions cfg w
      = mkOutcome 1 [] (lit "Error reading file: " ++ err ++ [nl]) None).
Proof.
  split.
  - intros err Hin. unfold main, readStdin. rewrite Hin. reflexivity.
  - intros input err Hin Hfile. unfold main, readStdin, fileContent.
    now rewrite Hin, Hfile.
Qed.

(** A file that holds one tag of the identifier without the other ends
    the run with status 1 and no write, whatever the flags, and standard
    error names the missing tag. *)
Theorem main_one_tag (cfg : config) (w : World) (input oldContent content : gostring) :
  stdinRead w = inl input ->
  readFile w (filename cfg) = inl oldContent ->
  applyTemplate parseActions executeActions (template cfg) input = Ok content ->
  let out := main parseActions executeActions cfg w in
  (Occurs oldContent (tagStart (ID cfg)) -> ~ Occurs oldContent (tagEnd (ID cfg)) ->
   out = mkOutcome 1 []
           (lit "Error: missing end tag <!-- END md-inject:" ++ ID cfg
              ++ lit " --> while start tag is present" ++ [nl]) None) /\
  (~ Occurs oldContent (tagStart (ID cfg)) -> Occurs oldContent (tagEnd (ID cfg)) ->
   out = mkOutcome 1 []
           (lit "Error: missing start tag <!-- START md-inject:" ++ ID cfg
              ++ lit " --> while end tag is present" ++ [nl]) None).
Proof.
  intros Hin Hfile Htmpl out. subst out.
  unfold main, readStdin, fileContent. rewrite Hin, Hfile, Htmpl. cbv zeta.
  split; intros Hs He.
  - apply Index_present in Hs. apply Index_absent in He.
    rewrite injectContent_missing_end by assumption. f_equal.
    unfold errMissingEndTag, tagEnd. rewrite <- !app_assoc. reflexivity.
  - apply Index_absent in Hs. apply Index_present in He.
    rewrite injectContent_missing_start by assumption. f_equal.
    unfold errMissingStartTag, tagStart. rewrite <- !app_assoc. reflexivity.
Qed.

(** On a file that holds neither tag of the identifier, a run that gets
    its content is never a no-op: the computed document is the file with
    the tagged block appended, and the run ends with status 2 under
    fail-on-diff, prints the document under print-only, and otherwise
    hands it to the write. *)
Theorem main_untagged_file
  (cfg : config) (w : World) (input oldContent content : gostring) :
  stdinRead w = inl input ->
  readFile w (filename cfg) = inl oldContent ->
  applyTemplate parseActions executeActions (template cfg) input = Ok content ->
  ~ Occurs oldContent (tagStart (ID cfg)) ->
  ~ Occurs oldContent (tagEnd (ID cfg)) ->
  let out := main parseActions executeActions cfg w in
  let appended := oldContent ++ [nl] ++ tagStart (ID cfg) ++ [nl] ++ content ++ [nl]
                    ++ tagEnd (ID cfg) ++ [nl] in
  (failOnDiff cfg = true -> exitCode out = 2 /\ fileWrite out = None) /\
  (failOnDiff cfg = false -> printOnly cfg = true ->
   exitCode out = 0 /\ stdout out = appended /\ fileWrite out = None) /\
  (failOnDiff cfg = false -> printOnly cfg = false -> fileWrite out = Some appended).
Proof.
  intros Hin Hfile Htmpl Hs He out appended. subst out.
  apply Index_absent in Hs, He.
  unfold main, readStdin, fileContent. rewrite Hin, Hfile, Htmpl. cbv zeta.
  rewrite injectContent_append by assumption. fold appended.
  assert (Hne : eqbStr oldContent appended = false).
  { apply eqbStr_false. intros E. apply (f_equal (@List.length ascii)) in E.
    unfold appended in E. rewrite !length_app in E. simpl in E. lia. }
  rewrite Hne. split; [|split].
  - intros Hf. rewrite Hf. now split.
  - intros Hf Hp. rewrite Hf, Hp. now repeat split.
  - intros Hf Hp. rewrite Hf, Hp.
    now destruct (writeFile w (filename cfg) appended).
Qed.

(** With a template in which the left delimiter does not occur, what is
    read from standard input has no effect on the run. *)
Theorem main_plain_template_ignores_stdin
  (cfg : config) (i1 i2 : gostring)
  (rf : gostring -> gostring + gostring) (wf : gostring -> gostring -> option gostring) :
  ~ Occurs (template cfg) leftDelim ->
  main parseActions executeActions cfg (mkWorld (inl i1) rf wf)
  = main parseActions executeActions cfg (mkWorld (inl i2) rf wf).
Proof.
  intros H. unfold main, readStdin, fileContent. cbn [stdinRead readFile writeFile].
  now rewrite !applyTemplate_plain.
Qed.

(** After a run that writes, a second run on the written content with
    the same identifier, template, file name and input changes nothing,
    whatever the flags of the second run: it ends with status 0, the
    no-change line and no write.  This holds when the identifier has no
    newline, the content to inject does not hold the end tag, and the end
    tag of the first file does not come before its start tag. *)
Theorem main_second_run_noop
  (cfg cfg' : config) (w w' : World) (input oldContent content c : gostring) :
  stdinRead w = inl input ->
  readFile w (filename cfg) = inl oldContent ->
  applyTemplate parseActions executeActions (template cfg) input = Ok content ->
  ~ In nl (ID cfg) ->
  ~ Occurs content (tagEnd (ID cfg)) ->
  ~ EndBeforeStart oldContent (tagStart (ID cfg)) (tagEnd (ID cfg)) ->
  fileWrite (main parseActions executeActions cfg w) = Some c ->
  ID cfg' = ID cfg ->
  template cfg' = template cfg ->
  filename cfg' = filename cfg ->
  stdinRead w' = inl input ->
  readFile w' (filename cfg') = inl c ->
  main parseActions executeActions cfg' w'
  = mkOutcome 0 (msgNoChange (filename cfg')) [] None.
Proof.
  intros Hin Hfile Htmpl Hid Hadd Hord Hw EID Etmpl Ename Hin' Hfile'.
  assert (Hinj : injectContent oldContent content (tagStart (ID cfg)) (tagEnd (ID cfg))
                 = Ok c).
  { revert Hw. unfold main, readStdin, fileContent. rewrite Hin, Hfile, Htmpl. cbv zeta.
    destruct (injectContent oldContent content (tagStart (ID cfg)) (tagEnd (ID cfg)))
      as [u|e|]; cbn; try discriminate.
    destruct (eqbStr oldContent u); cbn; try discriminate.
    destruct (failOnDiff cfg); cbn; try discriminate.
    destruct (printOnly cfg); cbn; try discriminate.
    destruct (writeFile w (filename cfg) u); cbn; congruence. }
  destruct (tag_newline_free _ Hid) as [Ns Ne].
  pose proof (injectContent_again _ _ content _ _ _ Ns Ne
                (tagEnd_not_in_tagStart (ID cfg)) Hadd Hord Hinj) as Hagain.
  rewrite Hinj in Hagain.
  unfold main, readStdin, fileContent. rewrite Hin', Hfile', Etmpl, Htmpl. cbv zeta.
  rewrite EID, Hagain. now rewrite (proj2 (eqbStr_true c c) eq_refl).
Qed.

End MainProperties.

Lemma main_writes_only_changes_witness :
  failOnDiff cfgWrite = false /\ printOnly cfgWrite = false /\
  exists input oldContent content,
    stdinRead (worldOf (lit "new") docTagged) = inl input /\
    readFile (worldOf (lit "new") docTagged) (filename cfgWrite) = inl oldContent /\
    applyTemplate stdinOnlyParse stdinOnlyExecute (template cfgWrite) input = Ok content /\
    injectContent oldContent content (tagStart (ID cfgWrite)) (tagEnd (ID cfgWrite))
    = Ok docFresh /\
    docFresh <> oldContent.
Proof.
  apply (main_writes_only_changes stdinOnlyParse stdinOnlyExecute cfgWrite
           (worldOf (lit "new") docTagged) docFresh).
  reflexivity.
Defined.

Lemma applyTemplate_text_only_witness :
  applyTemplate stdinOnlyParse stdinOnlyExecute defaultOutputTemplate (lit "a")
  = Ok defaultOutputTemplate /\
  applyTemplate stdinOnlyParse stdinOnlyExecute defaultOutputTemplate (lit "a")
  = applyTemplate stdinOnlyParse stdinOnlyExecute defaultOutputTemplate (lit "b").
Proof.
  apply (applyTemplate_text_only stdinOnlyParse stdinOnlyExecute defaultOutputTemplate
           (lit "a") (lit "b")).
  by_search.
Defined.

Lemma main_print_only_witness :
  let out := main stdinOnlyParse stdinOnlyExecute cfgPrint (worldOf (lit "new") docTagged) in
  exitCode out = 0 /\ fileWrite out = None /\ stderr out = [] /\
  (docFresh <> docTagged -> stdout out = docFresh) /\
  (docFresh = docTagged -> stdout out = msgNoChange (filename cfgPrint)).
Proof.
  apply (main_print_only stdinOnlyParse stdinOnlyExecute cfgPrint
           (worldOf (lit "new") docTagged) (lit "new") docTagged (lit "new") docFresh);
    reflexivity.
Defined.

Lemma main_read_failures_witness :
  main stdinOnlyParse stdinOnlyExecute cfgWrite
    (mkWorld (inr (lit "EOF")) (fun _ => inl docTagged) (fun _ _ => None))
  = mkOutcome 1 [] (lit "Error reading stdin: reading stdin: " ++ lit "EOF" ++ [nl]) None.
Proof.
  apply (proj1 (main_read_failures stdinOnlyParse stdinOnlyExecute cfgWrite
                  (mkWorld (inr (lit "EOF")) (fun _ => inl docTagged) (fun _ _ => None)))).
  reflexivity.
Defined.

Lemma main_one_tag_witness :
  main stdinOnlyParse stdinOnlyExecute cfgWrite (worldOf (lit "new") (lit "A" ++ sDefault))
  = mkOutcome 1 []
      (lit "Error: missing end tag <!-- END md-inject:" ++ ID cfgWrite
         ++ lit " --> while start tag is present" ++ [nl]) None.
Proof.
  apply (proj1 (main_one_tag stdinOnlyParse stdinOnlyExecute cfgWrite
                  (worldOf (lit "new") (lit "A" ++ sDefault)) (lit "new")
                  (lit "A" ++ sDefault) (lit "new") eq_refl eq_refl eq_refl));
    by_search.
Defined.

Lemma main_untagged_file_witness :
  fileWrite (main stdinOnlyParse stdinOnlyExecute cfgWrite (worldOf (lit "new") docPlain))
  = Some (docPlain ++ [nl] ++ sDefault ++ [nl] ++ lit "new" ++ [nl] ++ eDefault ++ [nl]).
Proof.
  apply (proj2 (proj2 (main_untagged_file stdinOnlyParse stdinOnlyExecute cfgWrite
                  (worldOf (lit "new") docPlain) (lit "new") docPlain (lit "new")
                  eq_refl eq_refl eq_refl
                  ltac:(by_search) ltac:(by_search)))); reflexivity.
Defined.

Lemma main_plain_template_ignores_stdin_witness :
  main stdinOnlyParse stdinOnlyExecute cfgDefault (worldOf (lit "a") docPlain)
  = main stdinOnlyParse stdinOnlyExecute cfgDefault (worldOf (lit "b") docPlain).
Proof.
  apply (main_plain_template_ignores_stdin stdinOnlyParse stdinOnlyExecute cfgDefault
           (lit "a") (lit "b") (fun _ => inl docPlain) (fun _ _ => None)).
  by_search.
Defined.

Lemma main_second_run_noop_witness :
  main stdinOnlyParse stdinOnlyExecute cfgCheck (worldOf (lit "new") docFresh)
  = mkOutcome 0 (msgNoChange (filename cfgCheck)) [] None.
Proof.
  apply (main_second_run_noop stdinOnlyParse stdinOnlyExecute cfgWrite cfgCheck
           (worldOf (lit "new") docTagged) (worldOf (lit "new") docFresh)
           (lit "new") docTagged (lit "new") docFresh);
    try reflexivity.
  - vm_compute. intuition discriminate.
  - by_search.
  - exact docTagged_in_order.
Defined.

(** ** The tags of an identifier *)

Lemma close_unique (id1 id2 post : gostring) :
  ~ In ">"%char id2 ->
  id1 ++ lit " -->" ++ post = id2 ++ lit " -->" ->
  id1 = id2.
Proof.
  revert id2. induction id1 as [|a id1 IH]; intros id2 Hno E.
  - destruct id2 as [|c1 [|c2 [|c3 [|c4 id2]]]]; simpl in E;
      try reflexivity; try discriminate E.
    injection E as <- <- <- <- _. exfalso. apply Hno. simpl. tauto.
  - destruct id2 as [|b id2].
    + apply (f_equal (@List.length ascii)) in E. simpl in E.
      rewrite !length_app in E. simpl in E. lia.
    + simpl in E. injection E as <- E. f_equal. apply IH; [|assumption].
      intros H. apply Hno. now right.
Qed.

Lemma open_only_first (id t pre post head : gostring) :
  ~ In "<"%char id ->
  ~ In "<"%char head ->
  "<"%char :: head ++ id ++ lit " -->" = pre ++ ("<"%char :: t) ++ post ->
  pre = [].
Proof.
  intros Hid Hhead E. destruct pre as [|c pre]; [reflexivity|].
  simpl in E. injection E as _ E. exfalso.
  assert (H : In "<"%char (head ++ id ++ lit " -->")).
  { simpl. rewrite E. apply in_or_app. right. now left. }
  apply in_app_or in H as [H|H]; [contradiction|].
  apply in_app_or in H as [H|H]; [contradiction|].
  vm_compute in H. intuition discriminate.
Qed.

(** A start tag is never an end tag, whatever the two identifiers, and a
    tag determines its identifier. *)
Theorem tags_determine_id (id1 id2 : gostring) :
  tagStart id1 <> tagEnd id2 /\
  (tagStart id1 = tagStart id2 -> id1 = id2) /\
  (tagEnd id1 = tagEnd id2 -> id1 = id2).
Proof.
  split; [discriminate|]. split; intros E.
  - unfold tagStart in E. apply app_inv_head in E. now apply app_inv_tail in E.
  - unfold tagEnd in E. apply app_inv_head in E. now apply app_inv_tail in E.
Qed.

Lemma tags_determine_id_witness : defaultTagID = defaultTagID.
Proof.
  apply (proj1 (proj2 (tags_determine_id defaultTagID defaultTagID))). reflexivity.
Defined.

(** The tags of an identifier without angle brackets hold no tag of
    another identifier: a start tag or an end tag that occurs in one of
    them is that very tag. *)
Theorem tags_do_not_nest (id1 id2 : gostring) :
  ~ In "<"%char id2 ->
  ~ In ">"%char id2 ->
  (Occurs (tagStart id2) (tagStart id1) -> id1 = id2) /\
  (Occurs (tagEnd id2) (tagEnd id1) -> id1 = id2) /\
  ~ Occurs (tagStart id2) (tagEnd id1) /\
  ~ Occurs (tagEnd id2) (tagStart id1).
Proof.
  intros Hlt Hgt.
  assert (Hs : ~ In "<"%char (lit "!-- START md-inject:"))
    by (vm_compute; intuition discriminate).
  assert (He : ~ In "<"%char (lit "!-- END md-inject:"))
    by (vm_compute; intuition discriminate).
  repeat split.
  - intros (k & pre & post & E & _).
    pose proof (open_only_first id2 _ pre post _ Hlt Hs E) as ->.
    unfold tagStart in E. simpl in E.
    repeat (injection E as E).
    symmetry in E. rewrite <- app_assoc in E. now apply close_unique in E.
  - intros (k & pre & post & E & _).
    pose proof (open_only_first id2 _ pre post _ Hlt He E) as ->.
    unfold tagEnd in E. simpl in E.
    repeat (injection E as E).
    symmetry in E. rewrite <- app_assoc in E. now apply close_unique in E.
  - intros (k & pre & post & E & _).
    pose proof (open_only_first id2 _ pre post _ Hlt Hs E) as ->.
    unfold tagStart, tagEnd in E. simpl in E. discriminate E.
  - intros (k & pre & post & E & _).
    pose proof (open_only_first id2 _ pre post _ Hlt He E) as ->.
    unfold tagStart, tagEnd in E. simpl in E. discriminate E.
Qed.

Lemma tags_do_not_nest_witness :
  (Occurs (tagStart defaultTagID) (tagStart (lit "x")) -> lit "x" = defaultTagID) /\
  (Occurs (tagEnd defaultTagID) (tagEnd (lit "x")) -> lit "x" = defaultTagID) /\
  ~ Occurs (tagStart defaultTagID) (tagEnd (lit "x")) /\
  ~ Occurs (tagEnd defaultTagID) (tagStart (lit "x")).
Proof.
  apply (tags_do_not_nest (lit "x") defaultTagID); vm_compute; intuition discriminate.
Defined.

(** ** The run with its command line *)

(** When [flag.Parse] returns, the exit status of the program is 0, 1 or
    2, and it is 2 only when fail-on-diff was given as true, a file name
    was given, and the input, the file, the template and the injection
    succeeded with a content that differs from the file; the program then
    writes nothing. *)
Theorem program_exit_status
  (parseActions : gostring -> option gostring)
  (executeActions : gostring -> gostring -> gostring + gostring)
  (defaults : gostring) (values : FlagValues) (args : list gostring) (w : World) :
  let out := program parseActions executeActions defaults (FlagParsed values args) w in
  (exitCode out = 0 \/ exitCode out = 1 \/ exitCode out = 2) /\
  (exitCode out = 2 ->
   flagFailOnDiff values = Some true /\ fileWrite out = None /\
   exists name rest input oldContent content updatedContent,
     args = name :: rest /\
     stdinRead w = inl input /\
     readFile w name = inl oldContent /\
     applyTemplate parseActions executeActions
       (orDefault defaultOutputTemplate (flagTemplate values)) input = Ok content /\
     injectContent oldContent content
       (tagStart (orDefault defaultTagID (flagID values)))
       (tagEnd (orDefault defaultTagID (flagID values))) = Ok updatedContent /\
     updatedContent <> oldContent).
Proof.
  unfold program, parseArgs. destruct args as [|name rest].
  - cbn. split; [auto|]. discriminate.
  - set (cfg := mkConfig _ _ _ _ name).
    destruct (main_exit_status parseActions executeActions cfg w) as [H1 H2].
    split; [exact H1|]. intros E.
    destruct (H2 E) as (Hf & Hw & input & old & content & updated & Hrest).
    split.
    + cbn in Hf. destruct (flagFailOnDiff values) as [[|]|]; cbn in Hf; congruence.
    + split; [exact Hw|]. now exists name, rest, input, old, content, updated.
Qed.

Lemma program_exit_status_witness :
  flagFailOnDiff flagsCheck = Some true /\
  fileWrite (program stdinOnlyParse stdinOnlyExecute [] (FlagParsed flagsCheck [lit "README.md"])
               (worldOf (lit "new") docTagged)) = None /\
  exists name rest input oldContent content updatedContent,
    [lit "README.md"] = name :: rest /\
    stdinRead (worldOf (lit "new") docTagged) = inl input /\
    readFile (worldOf (lit "new") docTagged) name = inl oldContent /\
    applyTemplate stdinOnlyParse stdinOnlyExecute
      (orDefault defaultOutputTemplate (flagTemplate flagsCheck)) input = Ok content /\
    injectContent oldContent content
      (tagStart (orDefault defaultTagID (flagID flagsCheck)))
      (tagEnd (orDefault defaultTagID (flagID flagsCheck))) = Ok updatedContent /\
    updatedContent <> oldContent.
Proof.
  apply (proj2 (program_exit_status stdinOnlyParse stdinOnlyExecute []
                  flagsCheck [lit "README.md"] (worldOf (lit "new") docTagged))).
  reflexivity.
Defined.

(** When [flag.Parse] returns, standard error is empty exactly when the
    program ends with status 0, and with another status nothing is
    printed on standard output; this includes the run without a file
    name, which ends with status 1. *)
Theorem program_streams
  (parseActions : gostring -> option gostring)
  (executeActions : gostring -> gostring -> gostring + gostring)
  (defaults : gostring) (values : FlagValues) (args : list gostring) (w : World) :
  let out := program parseActions executeActions defaults (FlagParsed values args) w in
  (exitCode out = 0 <-> stderr out = []) /\
  (exitCode out <> 0 -> stdout out = []) /\
  (args = [] -> exitCode out = 1 /\ fileWrite out = None).
Proof.
  unfold program, parseArgs. destruct args as [|name rest].
  - cbn. repeat split; try reflexivity; discriminate.
  - set (cfg := mkConfig _ _ _ _ name).
    destruct (main_streams parseActions executeActions cfg w) as [H1 H2].
    split; [exact H1|]. split; [exact H2|]. discriminate.
Qed.

Lemma program_streams_witness :
  stdout (program stdinOnlyParse stdinOnlyExecute [] (FlagParsed flagsNone [])
            (worldOf (lit "new") docTagged)) = [] /\
  exitCode (program stdinOnlyParse stdinOnlyExecute [] (FlagParsed flagsNone [])
              (worldOf (lit "new") docTagged)) = 1.
Proof.
  split.
  - apply (proj1 (proj2 (program_streams stdinOnlyParse stdinOnlyExecute []
                           flagsNone [] (worldOf (lit "new") docTagged)))).
    vm_compute. discriminate.
  - apply (proj2 (proj2 (program_streams stdinOnlyParse stdinOnlyExecute []
                           flagsNone [] (worldOf (lit "new") docTagged)))).
    reflexivity.
Defined.
